(** * Places: the restaurant tracker's REST handlers over SQLite

    A shallow embedding of the two Express servers of the repository: the
    production server (the listing with neighborhoods, tags and aggregated
    search, the transactional create / update / delete handlers) and the
    earlier development server [server.js].  The database is a record of
    tables, every table a list of rows in rowid order; each handler is a
    function from the stored database and the request to the HTTP reply and
    the database that is left behind. *)

From Stdlib Require Import List NArith ZArith Bool String Ascii Lia.
Import ListNotations.
Local Open Scope N_scope.

(** ** Text, as JavaScript and SQLite treat it *)

Module Text.

(** A string is its sequence of code points.  Every character the handlers
    look at (white space, the comma, the colon, the LIKE wildcards, ASCII
    letters) is a single code point below U+10000. *)
Definition char := N.
Definition str := list char.

(** An ASCII literal of the source. *)
Definition lit (s : string) : str := map N_of_ascii (list_ascii_of_string s).

Definition str_eqb (a b : str) : bool :=
  if list_eq_dec N.eq_dec a b then true else false.

(** JavaScript truthiness of a string: [if (s)] holds for a non-empty one. *)
Definition truthy (s : str) : bool :=
  match s with [] => false | _ :: _ => true end.

(** [WhiteSpace] and [LineTerminator] of ECMAScript, the characters that
    [String.prototype.trim] removes. *)
Definition is_white_space (c : char) : bool :=
  existsb (N.eqb c)
    [9; 10; 11; 12; 13; 32; 160; 5760; 8232; 8233; 8239; 8287; 12288; 65279]
  || ((8192 <=? c) && (c <=? 8202)).

Fixpoint trim_start (s : str) : str :=
  match s with
  | [] => []
  | c :: s' => if is_white_space c then trim_start s' else s
  end.

Definition trim_end (s : str) : str := rev (trim_start (rev s)).

(** [s.trim()] *)
Definition trim (s : str) : str := trim_end (trim_start s).

Definition comma : char := 44.
Definition colon : char := 58.
Definition percent : char := 37.
Definition underscore : char := 95.

(** [s.split(sep)] for a one-character separator: never the empty list, the
    empty string gives one empty piece. *)
Fixpoint split (sep : char) (s : str) : list str :=
  match s with
  | [] => [[]]
  | c :: s' =>
      if c =? sep then [] :: split sep s'
      else match split sep s' with
           | w :: ws => (c :: w) :: ws
           | [] => [[c]]
           end
  end.

(** [l.join(sep)], also the way GROUP_CONCAT glues its values. *)
Fixpoint join (sep : char) (l : list str) : str :=
  match l with
  | [] => []
  | [w] => w
  | w :: ws => w ++ sep :: join sep ws
  end.

(** SQLite folds the case of the 26 ASCII letters only. *)
Definition fold_case (c : char) : char :=
  if (65 <=? c) && (c <=? 90) then c + 32 else c.

(** [s LIKE pat] of SQLite with no ESCAPE: [%] matches any run of
    characters, [_] exactly one, everything else itself up to ASCII case. *)
Fixpoint like (pat : str) (s : str) {struct pat} : bool :=
  match pat with
  | [] => match s with [] => true | _ :: _ => false end
  | p :: pat' =>
      if p =? percent then
        (fix any (t : str) : bool :=
           like pat' t || match t with [] => false | _ :: t' => any t' end) s
      else
        match s with
        | [] => false
        | c :: s' =>
            ((p =? underscore) || (fold_case p =? fold_case c)) && like pat' s'
        end
  end.

(** The parameter the handlers bind for a containment test: [`%${v}%`]. *)
Definition contains_pattern (v : str) : str := percent :: v ++ [percent].

(** A column may be NULL; LIKE on NULL is NULL, which no filter takes for
    true. *)
Definition like_column (pat : str) (col : option str) : bool :=
  match col with
  | Some s => like pat s
  | None => false
  end.

(** Code-point order, the BINARY collation of [ORDER BY r.name]. *)
Fixpoint str_leb (a b : str) : bool :=
  match a, b with
  | [], _ => true
  | _ :: _, [] => false
  | x :: a', y :: b' =>
      if x <? y then true else if y <? x then false else str_leb a' b'
  end.

(** Keeps the first occurrence of every value (DISTINCT inside an
    aggregate). *)
Fixpoint distinct (l : list str) : list str :=
  match l with
  | [] => []
  | x :: l' => x :: filter (fun y => negb (str_eqb x y)) (distinct l')
  end.

(** GROUP_CONCAT(DISTINCT e): NULL when the group has no non-NULL value,
    otherwise the distinct values joined by commas. *)
Definition group_concat_distinct (values : list str) : option str :=
  match values with
  | [] => None
  | _ :: _ => Some (join comma (distinct values))
  end.

End Text.
Import Text.

(** ** The relational schema *)

Module Schema.

(** A row of [restaurants]; [r_x] is the column the queries write [r.x].
    [liked] and [has_happy_hour] are stored as 0 or 1, the coordinates are
    kept as the numeric literal the client sent. *)
Record restaurant := mkRestaurant {
  r_id : N;
  r_name : str;
  r_neighborhood : option str;
  r_borough : option str;
  r_status : option str;
  r_liked : N;
  r_happy_hour : option str;
  r_happy_hour_start_time : option str;
  r_happy_hour_end_time : option str;
  r_happy_hour_data : option str;
  r_has_happy_hour : N;
  r_notes : option str;
  r_what_to_order : option str;
  r_website_link : option str;
  r_latitude : option str;
  r_longitude : option str;
  r_created_at : option str;
  r_updated_at : option str
}.

(** A row of [cuisines], [types] or [neighborhoods]. *)
Record lookup := mkLookup { l_id : N; l_name : str }.

(** A row of [tags]. *)
Record tag := mkTag { tg_id : N; tg_name : str; tg_color : str }.

(** A row of one of the four join tables: [restaurant_id] and the id of the
    cuisine, type, neighborhood or tag. *)
Record link := mkLink { restaurant_id : N; other_id : N }.

Definition link_eqb (a b : link) : bool :=
  (restaurant_id a =? restaurant_id b) && (other_id a =? other_id b).

Record database := mkDatabase {
  restaurants : list restaurant;
  cuisines : list lookup;
  types : list lookup;
  neighborhoods : list lookup;
  tags : list tag;
  restaurant_cuisines : list link;
  restaurant_types : list link;
  restaurant_neighborhoods : list link;
  restaurant_tags : list link
}.

Definition empty_database : database := mkDatabase [] [] [] [] [] [] [] [] [].

(** The four many-to-many categories. *)
Inductive category := Cuisines | Types | Neighborhoods | Tags.

(** Modelled from the spec: the CREATE TABLE statements are not part of the
    sources.  The data model makes every lookup name unique (which is what
    gives [INSERT OR IGNORE INTO cuisines (name)] something to ignore) and
    gives a tag the colour [#6B7280] when none is supplied, so [tags.color]
    is taken as [NOT NULL DEFAULT '#6B7280'] and [name] as [UNIQUE] in the
    four lookup tables. *)
Definition default_tag_color : str := lit "#6B7280".

(** The id SQLite gives a new row of an INTEGER PRIMARY KEY table: one more
    than the largest one in use. *)
Definition next_rowid (ids : list N) : N := 1 + fold_right N.max 0 ids.

(** [(id, name)] of the rows of a lookup table, in rowid order. *)
Definition entries (c : category) (db : database) : list (N * str) :=
  match c with
  | Cuisines => map (fun l => (l_id l, l_name l)) (cuisines db)
  | Types => map (fun l => (l_id l, l_name l)) (types db)
  | Neighborhoods => map (fun l => (l_id l, l_name l)) (neighborhoods db)
  | Tags => map (fun t => (tg_id t, tg_name t)) (tags db)
  end.

Definition links (c : category) (db : database) : list link :=
  match c with
  | Cuisines => restaurant_cuisines db
  | Types => restaurant_types db
  | Neighborhoods => restaurant_neighborhoods db
  | Tags => restaurant_tags db
  end.

Definition with_restaurants (rs : list restaurant) (db : database) : database :=
  mkDatabase rs (cuisines db) (types db) (neighborhoods db) (tags db)
    (restaurant_cuisines db) (restaurant_types db)
    (restaurant_neighborhoods db) (restaurant_tags db).

Definition with_links (c : category) (ls : list link) (db : database) : database :=
  match c with
  | Cuisines =>
      mkDatabase (restaurants db) (cuisines db) (types db) (neighborhoods db)
        (tags db) ls (restaurant_types db) (restaurant_neighborhoods db)
        (restaurant_tags db)
  | Types =>
      mkDatabase (restaurants db) (cuisines db) (types db) (neighborhoods db)
        (tags db) (restaurant_cuisines db) ls (restaurant_neighborhoods db)
        (restaurant_tags db)
  | Neighborhoods =>
      mkDatabase (restaurants db) (cuisines db) (types db) (neighborhoods db)
        (tags db) (restaurant_cuisines db) (restaurant_types db) ls
        (restaurant_tags db)
  | Tags =>
      mkDatabase (restaurants db) (cuisines db) (types db) (neighborhoods db)
        (tags db) (restaurant_cuisines db) (restaurant_types db)
        (restaurant_neighborhoods db) ls
  end.

(** Appends the row [(next id, nm)] (for a tag, with the default colour) to
    the lookup table of [c]. *)
Definition append_entry (c : category) (nm : str) (db : database) : database :=
  let i := next_rowid (map fst (entries c db)) in
  match c with
  | Cuisines =>
      mkDatabase (restaurants db) (cuisines db ++ [mkLookup i nm]) (types db)
        (neighborhoods db) (tags db) (restaurant_cuisines db)
        (restaurant_types db) (restaurant_neighborhoods db) (restaurant_tags db)
  | Types =>
      mkDatabase (restaurants db) (cuisines db) (types db ++ [mkLookup i nm])
        (neighborhoods db) (tags db) (restaurant_cuisines db)
        (restaurant_types db) (restaurant_neighborhoods db) (restaurant_tags db)
  | Neighborhoods =>
      mkDatabase (restaurants db) (cuisines db) (types db)
        (neighborhoods db ++ [mkLookup i nm]) (tags db) (restaurant_cuisines db)
        (restaurant_types db) (restaurant_neighborhoods db) (restaurant_tags db)
  | Tags =>
      mkDatabase (restaurants db) (cuisines db) (types db) (neighborhoods db)
        (tags db ++ [mkTag i nm default_tag_color]) (restaurant_cuisines db)
        (restaurant_types db) (restaurant_neighborhoods db) (restaurant_tags db)
  end.

End Schema.
Import Schema.

(** ** The SQL statements the handlers run *)

Module Sql.

(** What the callback of [db.run] sees: an error, or the statement applied. *)
Inductive result (A : Type) : Type :=
| Ok (a : A)
| Failed (message : string).
Arguments Ok {A} a.
Arguments Failed {A} message.

Definition bind {A B : Type} (r : result A) (k : A -> result B) : result B :=
  match r with
  | Ok a => k a
  | Failed m => Failed m
  end.

Notation "x <- r ;; k" := (bind r (fun x => k))
  (at level 61, r at next level, right associativity).

(** Runs [step] on every element in turn and stops at the first error. *)
Fixpoint for_each {A S : Type} (step : A -> S -> result S) (l : list A) (s : S)
  : result S :=
  match l with
  | [] => Ok s
  | a :: l' => s' <- step a s ;; for_each step l' s'
  end.

(** [INSERT OR IGNORE INTO <lookup> (name) VALUES (?)]: a name that is taken
    already leaves the table as it is. *)
Definition insert_or_ignore (c : category) (nm : str) (db : database) : database :=
  if existsb (fun e => str_eqb (snd e) nm) (entries c db) then db
  else append_entry c nm db.

(** The ids that [SELECT id FROM <lookup> WHERE name = ?] yields. *)
Definition ids_named (c : category) (nm : str) (db : database) : list N :=
  map fst (filter (fun e => str_eqb (snd e) nm) (entries c db)).

(** [DELETE FROM restaurant_<c> WHERE restaurant_id = ?] *)
Definition delete_links (c : category) (rid : N) (db : database) : database :=
  with_links c (filter (fun l => negb (restaurant_id l =? rid)) (links c db)) db.

Section JoinTables.

(** Whether the join tables declare their pair of columns unique (as a
    PRIMARY KEY or UNIQUE constraint).  The schema is not part of the
    sources, so both possibilities are carried along. *)
Variable unique_links : bool.

(** One row of a plain [INSERT INTO restaurant_<c>]: refused when the pair is
    there already and the table does not allow duplicates. *)
Definition insert_link (c : category) (l : link) (db : database) : result database :=
  if unique_links && existsb (link_eqb l) (links c db)
  then Failed "UNIQUE constraint failed"
  else Ok (with_links c (links c db ++ [l]) db).

(** [INSERT INTO restaurant_<c> (restaurant_id, <c>_id)
     SELECT ?, id FROM <lookup> WHERE name = ?] *)
Definition insert_links_named (c : category) (rid : N) (nm : str) (db : database)
  : result database :=
  for_each (fun i => insert_link c (mkLink rid i)) (ids_named c nm db) db.

(** [INSERT OR IGNORE INTO restaurant_<c> ...], the form the neighborhood
    migration uses: a pair that is there already is passed over. *)
Definition insert_or_ignore_link (c : category) (l : link) (db : database) : database :=
  if existsb (link_eqb l) (links c db) then db
  else with_links c (links c db ++ [l]) db.

(** The statements that tie a restaurant to a list of names, in the order
    they reach the database.  Mapping the list to promises submits the
    [INSERT OR IGNORE] of every name at once ([ensure_names]); the linking
    INSERT of a name is submitted from the callback of its first statement,
    hence after all of those ([link_names]), and stops with the error that
    rejects its promise. *)
Definition ensure_names (work : list (category * str)) (db : database) : database :=
  fold_left (fun d w => insert_or_ignore (fst w) (trim (snd w)) d) work db.

Definition link_names (restaurantId : N) (work : list (category * str))
  (db : database) : result database :=
  for_each
    (fun w => insert_links_named (fst w) restaurantId (trim (snd w))) work db.

End JoinTables.

End Sql.
Import Sql.

(** ** Requests and replies *)

Module Http.

(** The JSON body of POST and PUT.  A field is [None] when the body leaves
    it out ([undefined] after destructuring); text fields carry strings,
    [liked] and [has_happy_hour] the truth value JavaScript reads off them. *)
Record body := mkBody {
  b_name : option str;
  b_neighborhood : option str;
  b_borough : option str;
  b_status : option str;
  b_liked : option bool;
  b_happy_hour : option str;
  b_happy_hour_start_time : option str;
  b_happy_hour_end_time : option str;
  b_happy_hour_data : option str;
  b_has_happy_hour : option bool;
  b_notes : option str;
  b_what_to_order : option str;
  b_website_link : option str;
  b_latitude : option str;
  b_longitude : option str;
  b_cuisines : option (list str);
  b_types : option (list str);
  b_neighborhoods : option (list str);
  b_tags : option (list str)
}.

Definition empty_body : body :=
  mkBody None None None None None None None None None None None None None
    None None None None None None.

(** The query string of GET /api/restaurants; [limit] and [offset] as
    [parseInt] reads them. *)
Record query := mkQuery {
  q_search : option str;
  q_cuisines : option str;
  q_types : option str;
  q_tags : option str;
  q_neighborhoods : option str;
  q_boroughs : option str;
  q_status : option str;
  q_liked : option str;
  q_limit : option Z;
  q_offset : option Z
}.

Definition empty_query : query :=
  mkQuery None None None None None None None None None None.

(** A destructuring default: [x = d]. *)
Definition default {A : Type} (d : A) (o : option A) : A :=
  match o with Some a => a | None => d end.

(** [if (p)] on a query parameter. *)
Definition given (p : option str) : bool :=
  match p with Some s => truthy s | None => false end.

(** [{ name, color }] *)
Record tag_json := mkTagJson { tj_name : str; tj_color : str }.

(** The object a restaurant is sent as: the row, with [liked] made a boolean
    and the aggregated columns split into lists. *)
Record restaurant_json := mkRestaurantJson {
  j_row : restaurant;
  j_liked : bool;
  j_cuisines : list str;
  j_types : list str;
  j_neighborhoods : list str;
  j_tags : list tag_json
}.

Inductive reply :=
| RestaurantList (rows : list restaurant_json)
| RestaurantObject (o : restaurant_json)
| Created (id : N)
| Message (message : string)
| ErrorReply (code : N) (error : string).

Definition status_code (r : reply) : N :=
  match r with
  | ErrorReply code _ => code
  | _ => 200
  end.

End Http.
Import Http.

(** ** The SELECT of the listing *)

Module Select.

(** A condition appended to [WHERE 1=1]. *)
Inductive where_condition :=
| borough_is (v : str)
| status_is (v : str)
| liked_is (v : N)
| neighborhood_like (pat : str)
| name_notes_order_like (pat : str).

(** A parenthesised condition that is appended after [GROUP BY r.id]:
    [any_like c pats] is [(GROUP_CONCAT(DISTINCT x.name) LIKE ? OR ...)] with
    one disjunct per bound pattern, [search_all pat] the eight search
    conditions on name, notes, what_to_order, borough and the four
    aggregates. *)
Inductive having_condition :=
| any_like (c : category) (pats : list str)
| search_all (pat : str).

(** The text that introduces an appended condition. *)
Inductive fragment :=
| HAVING (h : having_condition)
| AND (h : having_condition)
| OR (h : having_condition).

Record select := mkSelect {
  sel_where : list where_condition;
  sel_tail : list fragment;
  sel_limit : Z;
  sel_offset : Z
}.

Definition is_having (f : fragment) : bool :=
  match f with HAVING _ => true | _ => false end.

(** The names joined to restaurant [rid] through the join table of [c], in
    the order of the join rows. *)
Definition linked_names (c : category) (db : database) (rid : N) : list str :=
  flat_map
    (fun l =>
       if restaurant_id l =? rid
       then map snd (filter (fun e => fst e =? other_id l) (entries c db))
       else [])
    (links c db).

(** The values of [tg.name || ':' || tg.color] joined to restaurant [rid]. *)
Definition linked_tags (db : database) (rid : N) : list str :=
  flat_map
    (fun l =>
       if restaurant_id l =? rid
       then map (fun t => tg_name t ++ colon :: tg_color t)
              (filter (fun t => tg_id t =? other_id l) (tags db))
       else [])
    (restaurant_tags db).

(** [GROUP_CONCAT(DISTINCT x.name)] of the group of restaurant [rid]. *)
Definition aggregate (c : category) (db : database) (rid : N) : option str :=
  group_concat_distinct (linked_names c db rid).

Definition eval_where (w : where_condition) (r : restaurant) : bool :=
  match w with
  | borough_is v =>
      match r_borough r with Some b => str_eqb b v | None => false end
  | status_is v =>
      match r_status r with Some s => str_eqb s v | None => false end
  | liked_is v => r_liked r =? v
  | neighborhood_like pat => like_column pat (r_neighborhood r)
  | name_notes_order_like pat =>
      like pat (r_name r) || like_column pat (r_notes r)
      || like_column pat (r_what_to_order r)
  end.

(** A condition is kept by HAVING when it is true; NULL counts as not true,
    which agrees with SQL's three-valued AND and OR since no condition here
    is negated. *)
Definition eval_having (h : having_condition) (db : database) (r : restaurant) : bool :=
  match h with
  | any_like c pats =>
      existsb (fun pat => like_column pat (aggregate c db (r_id r))) pats
  | search_all pat =>
      like pat (r_name r) || like_column pat (r_notes r)
      || like_column pat (r_what_to_order r) || like_column pat (r_borough r)
      || like_column pat (aggregate Cuisines db (r_id r))
      || like_column pat (aggregate Types db (r_id r))
      || like_column pat (aggregate Neighborhoods db (r_id r))
      || like_column pat (aggregate Tags db (r_id r))
  end.

(** [e AND e1 OR e2 ...] read as SQL does: AND binds tighter than OR.
    [acc] is the value of the conjunction that is being read. *)
Fixpoint eval_operators (acc : bool) (rest : list fragment) (db : database)
  (r : restaurant) : bool :=
  match rest with
  | [] => acc
  | AND h :: rest' => eval_operators (acc && eval_having h db r) rest' db r
  | OR h :: rest' => acc || eval_operators (eval_having h db r) rest' db r
  | HAVING _ :: _ => false
  end.

(** What SQLite makes of the text after [GROUP BY r.id].  Text that starts
    with AND or OR extends the GROUP BY term with an aggregate, which is
    refused when the statement is prepared, and so is a second HAVING. *)
Definition group_filter (tail : list fragment)
  : result (database -> restaurant -> bool) :=
  match tail with
  | [] => Ok (fun _ _ => true)
  | HAVING h :: rest =>
      if existsb is_having rest then Failed "near HAVING: syntax error"
      else Ok (fun db r => eval_operators (eval_having h db r) rest db r)
  | _ :: _ =>
      Failed "aggregate functions are not allowed in the GROUP BY clause"
  end.

(** [ORDER BY r.name]: a stable insertion sort. *)
Fixpoint insert_by_name (r : restaurant) (l : list restaurant) : list restaurant :=
  match l with
  | [] => [r]
  | x :: l' =>
      if str_leb (r_name r) (r_name x) then r :: l
      else x :: insert_by_name r l'
  end.

Definition order_by_name (l : list restaurant) : list restaurant :=
  fold_right insert_by_name [] l.

(** [LIMIT ? OFFSET ?]: a negative limit is no limit, a negative offset is
    none. *)
Definition limit_offset (limit offset : Z) (l : list restaurant) : list restaurant :=
  let l' := skipn (Z.to_nat offset) l in
  if (limit <? 0)%Z then l' else firstn (Z.to_nat limit) l'.

(** The restaurants that pass WHERE and HAVING.  The groups of
    [GROUP BY r.id] are the restaurants themselves, [id] being the primary
    key. *)
Definition selected (q : select) (keep : database -> restaurant -> bool)
  (db : database) : list restaurant :=
  filter (fun r => forallb (fun w => eval_where w r) (sel_where q) && keep db r)
    (restaurants db).

Definition run_select (q : select) (db : database) : result (list restaurant) :=
  keep <- group_filter (sel_tail q) ;;
  Ok (limit_offset (sel_limit q) (sel_offset q)
        (order_by_name (selected q keep db))).

(** [row.x ? row.x.split(',') : []] *)
Definition split_names (agg : option str) : list str :=
  match agg with
  | Some s => if truthy s then split comma s else []
  | None => []
  end.

(** [const [name, color] = tag.split(':');
     return { name, color: color || '#6B7280' }] *)
Definition parse_tag (t : str) : tag_json :=
  match split colon t with
  | name :: color :: _ =>
      mkTagJson name (if truthy color then color else default_tag_color)
  | name :: [] => mkTagJson name default_tag_color
  | [] => mkTagJson [] default_tag_color
  end.

(** [Boolean(row.liked)] *)
Definition Boolean (n : N) : bool := negb (n =? 0).

(** [c => c.trim()] then [c => c] over the comma-separated parameter. *)
Definition values (raw : str) : list str :=
  filter truthy (map trim (split comma raw)).

(** The HAVING or AND fragment of one category, for a parameter that names
    at least one value. *)
Definition category_fragment (k : having_condition -> fragment) (c : category)
  (p : option str) : list fragment :=
  match p with
  | Some raw =>
      match values raw with
      | [] => []
      | vs => [k (any_like c (map contains_pattern vs))]
      end
  | None => []
  end.

End Select.
Import Select.

(** ** The production server *)

Module Production.

(** *** GET /api/restaurants *)

Definition default_limit : Z := 10000.

(** The statement the handler assembles from the query string. *)
Definition build_query (q : query) : select :=
  let cuisines := q_cuisines q in
  let types := q_types q in
  let tags := q_tags q in
  let neighborhoods := q_neighborhoods q in
  let w_borough :=
    match q_boroughs q with
    | Some b => if truthy b then [borough_is b] else []
    | None => []
    end in
  let w_status :=
    match q_status q with
    | Some s => if truthy s then [status_is s] else []
    | None => []
    end in
  let w_liked :=
    match q_liked q with
    | Some l => [liked_is (if str_eqb l (lit "true") then 1 else 0)]
    | None => []
    end in
  let h_cuisines :=
    if given cuisines then category_fragment HAVING Cuisines cuisines else [] in
  let h_neighborhoods :=
    if given neighborhoods && negb (given cuisines)
    then category_fragment HAVING Neighborhoods neighborhoods
    else if given neighborhoods && given cuisines
    then category_fragment AND Neighborhoods neighborhoods
    else [] in
  let h_types :=
    if given types && negb (given cuisines) && negb (given neighborhoods)
    then category_fragment HAVING Types types
    else if given types && (given cuisines || given neighborhoods)
    then category_fragment AND Types types
    else [] in
  let h_tags :=
    if given tags && (given cuisines || given types || given neighborhoods)
    then category_fragment AND Tags tags
    else if given tags && negb (given cuisines) && negb (given types)
            && negb (given neighborhoods)
    then category_fragment HAVING Tags tags
    else [] in
  let tail := h_cuisines ++ h_neighborhoods ++ h_types ++ h_tags in
  let h_search :=
    match q_search q with
    | Some s =>
        if truthy s then
          let searchTerm := contains_pattern s in
          let hasHavingClause := existsb is_having tail in
          if hasHavingClause then [OR (search_all searchTerm)]
          else [HAVING (search_all searchTerm)]
        else []
    | None => []
    end in
  mkSelect (w_borough ++ w_status ++ w_liked) (tail ++ h_search)
    (default default_limit (q_limit q)) (default 0%Z (q_offset q)).

(** The object built from a row of the aggregated SELECT. *)
Definition shape (db : database) (r : restaurant) : restaurant_json :=
  mkRestaurantJson r (Boolean (r_liked r))
    (split_names (aggregate Cuisines db (r_id r)))
    (split_names (aggregate Types db (r_id r)))
    (split_names (aggregate Neighborhoods db (r_id r)))
    (map parse_tag (split_names (group_concat_distinct (linked_tags db (r_id r))))).

Definition get_restaurants (q : query) (db : database) : reply :=
  match run_select (build_query q) db with
  | Ok rows => RestaurantList (map (shape db) rows)
  | Failed m => ErrorReply 500 m
  end.

(** *** GET /api/restaurants/:id *)

Definition get_restaurant (restaurantId : N) (db : database) : reply :=
  match find (fun r => r_id r =? restaurantId) (restaurants db) with
  | Some row => RestaurantObject (shape db row)
  | None => ErrorReply 404 "Restaurant not found"
  end.

(** *** PUT /api/restaurants/:id *)

(** One [column = ?] of the UPDATE with its bound parameter. *)
Inductive assignment :=
| set_name (v : str)
| set_neighborhood (v : str)
| set_borough (v : str)
| set_status (v : str)
| set_liked (v : N)
| set_happy_hour (v : str)
| set_happy_hour_start_time (v : str)
| set_happy_hour_end_time (v : str)
| set_happy_hour_data (v : str)
| set_has_happy_hour (v : N)
| set_notes (v : str)
| set_what_to_order (v : str)
| set_website_link (v : str)
| set_latitude (v : str)
| set_longitude (v : str)
| set_updated_at (v : str).

Definition assign (a : assignment) (r : restaurant) : restaurant :=
  let '(mkRestaurant i nm nb bo st lk hh hs he hd hf nt wo wl la lo ca ua) := r in
  match a with
  | set_name v => mkRestaurant i v nb bo st lk hh hs he hd hf nt wo wl la lo ca ua
  | set_neighborhood v =>
      mkRestaurant i nm (Some v) bo st lk hh hs he hd hf nt wo wl la lo ca ua
  | set_borough v =>
      mkRestaurant i nm nb (Some v) st lk hh hs he hd hf nt wo wl la lo ca ua
  | set_status v =>
      mkRestaurant i nm nb bo (Some v) lk hh hs he hd hf nt wo wl la lo ca ua
  | set_liked v => mkRestaurant i nm nb bo st v hh hs he hd hf nt wo wl la lo ca ua
  | set_happy_hour v =>
      mkRestaurant i nm nb bo st lk (Some v) hs he hd hf nt wo wl la lo ca ua
  | set_happy_hour_start_time v =>
      mkRestaurant i nm nb bo st lk hh (Some v) he hd hf nt wo wl la lo ca ua
  | set_happy_hour_end_time v =>
      mkRestaurant i nm nb bo st lk hh hs (Some v) hd hf nt wo wl la lo ca ua
  | set_happy_hour_data v =>
      mkRestaurant i nm nb bo st lk hh hs he (Some v) hf nt wo wl la lo ca ua
  | set_has_happy_hour v =>
      mkRestaurant i nm nb bo st lk hh hs he hd v nt wo wl la lo ca ua
  | set_notes v =>
      mkRestaurant i nm nb bo st lk hh hs he hd hf (Some v) wo wl la lo ca ua
  | set_what_to_order v =>
      mkRestaurant i nm nb bo st lk hh hs he hd hf nt (Some v) wl la lo ca ua
  | set_website_link v =>
      mkRestaurant i nm nb bo st lk hh hs he hd hf nt wo (Some v) la lo ca ua
  | set_latitude v =>
      mkRestaurant i nm nb bo st lk hh hs he hd hf nt wo wl (Some v) lo ca ua
  | set_longitude v =>
      mkRestaurant i nm nb bo st lk hh hs he hd hf nt wo wl la (Some v) ca ua
  | set_updated_at v =>
      mkRestaurant i nm nb bo st lk hh hs he hd hf nt wo wl la lo ca (Some v)
  end.

(** [if (x !== undefined) { updates.push('x = ?'); params.push(...) }] *)
Definition push {A : Type} (x : option A) (set : A -> assignment) : list assignment :=
  match x with
  | Some v => [set v]
  | None => []
  end.

Definition bit (b : bool) : N := if b then 1 else 0.

Definition scalar_updates (b : body) : list assignment :=
  push (b_name b) (fun v => set_name (trim v))
  ++ push (b_neighborhood b) set_neighborhood
  ++ push (b_borough b) set_borough
  ++ push (b_status b) set_status
  ++ push (b_liked b) (fun v => set_liked (bit v))
  ++ push (b_happy_hour b) set_happy_hour
  ++ push (b_happy_hour_start_time b) set_happy_hour_start_time
  ++ push (b_happy_hour_end_time b) set_happy_hour_end_time
  ++ push (b_happy_hour_data b) set_happy_hour_data
  ++ push (b_has_happy_hour b) (fun v => set_has_happy_hour (bit v))
  ++ push (b_notes b) set_notes
  ++ push (b_what_to_order b) set_what_to_order
  ++ push (b_website_link b) set_website_link
  ++ push (b_latitude b) set_latitude
  ++ push (b_longitude b) set_longitude.

(** [UPDATE restaurants SET ... WHERE id = ?], with [this.changes]. *)
Definition update_restaurants (updates : list assignment) (restaurantId : N)
  (db : database) : nat * database :=
  (List.length (filter (fun r => r_id r =? restaurantId) (restaurants db)),
   with_restaurants
     (map (fun r =>
             if r_id r =? restaurantId
             then fold_left (fun r' a => assign a r') updates r
             else r)
        (restaurants db))
     db).

Section JoinTables.

Variable unique_links : bool.

(** The promises of one category of an update. *)
Definition relink (c : category) (restaurantId : N) (names : list str)
  (db : database) : result database :=
  let work := map (pair c) names in
  link_names unique_links restaurantId work (ensure_names work db).

(** One of [updateCuisinesTypesNeighborhoodsAndTags], [updateTypes],
    [updateNeighborhoods], [updateTags]: the guard [names.length >= 0], the
    DELETE, and the inserts when the list is not empty. *)
Definition update_category (c : category) (restaurantId : N) (names : list str)
  (db : database) : result database :=
  if (0 <=? List.length names)%nat then
    let db1 := delete_links c restaurantId db in
    if (0 <? List.length names)%nat then relink c restaurantId names db1
    else Ok db1
  else Ok db.

Definition updateTags (restaurantId : N) (tags : list str) (db : database) :=
  update_category Tags restaurantId tags db.

Definition updateNeighborhoods (restaurantId : N) (neighborhoods tags : list str)
  (db : database) : result database :=
  db1 <- update_category Neighborhoods restaurantId neighborhoods db ;;
  updateTags restaurantId tags db1.

Definition updateTypes (restaurantId : N) (types neighborhoods tags : list str)
  (db : database) : result database :=
  db1 <- update_category Types restaurantId types db ;;
  updateNeighborhoods restaurantId neighborhoods tags db1.

Definition updateCuisinesTypesNeighborhoodsAndTags (restaurantId : N)
  (cuisines types neighborhoods tags : list str) (db : database)
  : result database :=
  db1 <- update_category Cuisines restaurantId cuisines db ;;
  updateTypes restaurantId types neighborhoods tags db1.

(** The handler: the reply and the database after COMMIT or ROLLBACK.
    [now] is CURRENT_TIMESTAMP. *)
Definition put_restaurant (now : str) (restaurantId : N) (b : body)
  (db : database) : reply * database :=
  let cuisines := default [] (b_cuisines b) in
  let types := default [] (b_types b) in
  let neighborhoods := default [] (b_neighborhoods b) in
  let tags := default [] (b_tags b) in
  let updates := scalar_updates b in
  if (List.length updates =? 0)%nat && (List.length cuisines =? 0)%nat
     && (List.length types =? 0)%nat && (List.length neighborhoods =? 0)%nat
     && (List.length tags =? 0)%nat
  then (ErrorReply 400 "No valid fields to update", db)
  else
    let finish (working : database) :=
      match updateCuisinesTypesNeighborhoodsAndTags restaurantId cuisines types
              neighborhoods tags working with
      | Ok db' => (Message "Restaurant updated successfully", db')
      | Failed m => (ErrorReply 500 m, db)
      end in
    if (0 <? List.length updates)%nat then
      let '(changes, db1) :=
        update_restaurants (updates ++ [set_updated_at now]) restaurantId db in
      if (changes =? 0)%nat then (ErrorReply 404 "Restaurant not found", db)
      else finish db1
    else finish db.

(** *** DELETE /api/restaurants/:id *)

Definition delete_restaurant (restaurantId : N) (db : database) : reply * database :=
  let db1 := delete_links Cuisines restaurantId db in
  let db2 := delete_links Types restaurantId db1 in
  let db3 := delete_links Tags restaurantId db2 in
  let changes :=
    List.length (filter (fun r => r_id r =? restaurantId) (restaurants db3)) in
  let db4 :=
    with_restaurants
      (filter (fun r => negb (r_id r =? restaurantId)) (restaurants db3)) db3 in
  if (changes =? 0)%nat then (ErrorReply 404 "Restaurant not found", db)
  else (Message "Restaurant deleted successfully", db4).

(** *** POST /api/migrate-neighborhoods *)

(** The pairs of restaurant id and name the migration walks through: the
    legacy column of every restaurant that has one, split at commas,
    trimmed, blanks dropped. *)
Definition migration_work (rs : list restaurant) : list (N * str) :=
  flat_map
    (fun r => map (pair (r_id r)) (values (default [] (r_neighborhood r))))
    (filter
       (fun r =>
          match r_neighborhood r with Some n => truthy n | None => false end)
       rs).

(** Its statements: [INSERT OR IGNORE INTO neighborhoods] for every pair,
    then [INSERT OR IGNORE INTO restaurant_neighborhoods ... SELECT ?, id
    FROM neighborhoods WHERE name = ?] from the callbacks. *)
Definition migrate_links (work : list (N * str)) (db : database) : database :=
  let db1 :=
    fold_left (fun d w => insert_or_ignore Neighborhoods (snd w) d) work db in
  fold_left
    (fun d w =>
       fold_left
         (fun d' i => insert_or_ignore_link Neighborhoods (mkLink (fst w) i) d')
         (ids_named Neighborhoods (snd w) d) d)
    work db1.

(** *** POST /api/restaurants *)

(** All four lists are mapped to promises before any callback runs.  A
    rejected promise is answered with ROLLBACK and 500; the statements of
    the request are taken in the order of their submission, all of them
    before that ROLLBACK, which brings back [db0], the database at BEGIN
    TRANSACTION. *)
Definition handleRestaurantRelationships (restaurantId : N)
  (cuisines types neighborhoods tags : list str) (db0 db : database)
  : reply * database :=
  let work :=
    map (pair Cuisines) cuisines ++ map (pair Types) types
    ++ map (pair Neighborhoods) neighborhoods ++ map (pair Tags) tags in
  match link_names unique_links restaurantId work (ensure_names work db) with
  | Ok db2 => (Created restaurantId, db2)
  | Failed m => (ErrorReply 500 m, db0)
  end.

(** Modelled from the spec: [created_at] and [updated_at] are not among the
    inserted columns; the data model makes them timestamps, taken here as
    columns that default to CURRENT_TIMESTAMP. *)
Definition post_restaurants (now : str) (b : body) (db : database)
  : reply * database :=
  let status := default (lit "Unvisited") (b_status b) in
  let liked := default false (b_liked b) in
  let has_happy_hour := default false (b_has_happy_hour b) in
  let cuisines := default [] (b_cuisines b) in
  let types := default [] (b_types b) in
  let neighborhoods := default [] (b_neighborhoods b) in
  let tags := default [] (b_tags b) in
  match b_name b with
  | None => (ErrorReply 400 "Restaurant name is required", db)
  | Some name =>
      if negb (truthy name) || negb (truthy (trim name))
      then (ErrorReply 400 "Restaurant name is required", db)
      else
        let restaurantId := next_rowid (map r_id (restaurants db)) in
        let row :=
          mkRestaurant restaurantId (trim name) (b_neighborhood b) (b_borough b)
            (Some status) (bit liked) (b_happy_hour b)
            (b_happy_hour_start_time b) (b_happy_hour_end_time b)
            (match b_happy_hour_data b with
             | Some d => if truthy d then Some d else None
             | None => None
             end)
            (bit has_happy_hour) (b_notes b) (b_what_to_order b)
            (b_website_link b) (b_latitude b) (b_longitude b)
            (Some now) (Some now) in
        handleRestaurantRelationships restaurantId cuisines types neighborhoods
          tags db (with_restaurants (restaurants db ++ [row]) db)
  end.

End JoinTables.

End Production.

(** ** The development server, [server.js] *)

Module Development.

Definition default_limit : Z := 100.

(** The rows of its listing carry cuisines, types and tags only. *)
Record restaurant_json := mkRestaurantJson {
  j_row : restaurant;
  j_liked : bool;
  j_cuisines : list str;
  j_types : list str;
  j_tags : list tag_json
}.

Inductive reply :=
| RestaurantList (rows : list restaurant_json)
| Created (id : N)
| ErrorReply (code : N) (error : string).

Definition status_code (r : reply) : N :=
  match r with
  | ErrorReply code _ => code
  | _ => 200
  end.

(** GET /api/restaurants: search and the legacy neighborhood column are
    tested in WHERE, cuisines and types in HAVING. *)
Definition build_query (q : query) : select :=
  let cuisines := q_cuisines q in
  let types := q_types q in
  let w_search :=
    match q_search q with
    | Some s => if truthy s then [name_notes_order_like (contains_pattern s)] else []
    | None => []
    end in
  let w_borough :=
    match q_boroughs q with
    | Some b => if truthy b then [borough_is b] else []
    | None => []
    end in
  let w_neighborhood :=
    match q_neighborhoods q with
    | Some n => if truthy n then [neighborhood_like (contains_pattern n)] else []
    | None => []
    end in
  let w_status :=
    match q_status q with
    | Some s => if truthy s then [status_is s] else []
    | None => []
    end in
  let w_liked :=
    match q_liked q with
    | Some l => [liked_is (if str_eqb l (lit "true") then 1 else 0)]
    | None => []
    end in
  let h_cuisines :=
    if given cuisines then category_fragment HAVING Cuisines cuisines else [] in
  let h_types :=
    if given types && negb (given cuisines)
    then category_fragment HAVING Types types
    else if given types && given cuisines
    then category_fragment AND Types types
    else [] in
  mkSelect (w_search ++ w_borough ++ w_neighborhood ++ w_status ++ w_liked)
    (h_cuisines ++ h_types)
    (default default_limit (q_limit q)) (default 0%Z (q_offset q)).

Definition shape (db : database) (r : restaurant) : restaurant_json :=
  mkRestaurantJson r (Boolean (r_liked r))
    (split_names (aggregate Cuisines db (r_id r)))
    (split_names (aggregate Types db (r_id r)))
    (map parse_tag (split_names (group_concat_distinct (linked_tags db (r_id r))))).

Definition get_restaurants (q : query) (db : database) : reply :=
  match run_select (build_query q) db with
  | Ok rows => RestaurantList (map (shape db) rows)
  | Failed m => ErrorReply 500 m
  end.

(** Modelled from the spec: the columns the INSERT of this server leaves
    out take the defaults of a schema that is not in the sources, NULL for
    the texts, 0 for [has_happy_hour] and CURRENT_TIMESTAMP for the two
    timestamps.  POST /api/restaurants writes the row alone, outside any
    transaction. *)
Definition post_restaurants (now : str) (b : body) (db : database)
  : reply * database :=
  let status := default (lit "Unvisited") (b_status b) in
  let liked := default false (b_liked b) in
  match b_name b with
  | None => (ErrorReply 400 "Restaurant name is required", db)
  | Some name =>
      if negb (truthy name) || negb (truthy (trim name))
      then (ErrorReply 400 "Restaurant name is required", db)
      else
        let lastID := next_rowid (map r_id (restaurants db)) in
        let row :=
          mkRestaurant lastID (trim name) (b_neighborhood b) (b_borough b)
            (Some status) (Production.bit liked) (b_happy_hour b) None None None
            0 (b_notes b) (b_what_to_order b) (b_website_link b)
            (b_latitude b) (b_longitude b) (Some now) (Some now) in
        (Created lastID, with_restaurants (restaurants db ++ [row]) db)
  end.

End Development.

(** ** The vocabulary of the specification *)

Module Spec.

(** A string that is empty or white space only. *)
Definition blank (s : str) : Prop := forallb is_white_space s = true.

(** [v] occurs in [s] as a substring, up to the case of ASCII letters. *)
Definition appears_in (v s : str) : Prop :=
  exists pre mid post,
    s = pre ++ mid ++ post /\ map fold_case mid = map fold_case v.

Definition appears_in_column (v : str) (col : option str) : Prop :=
  match col with
  | Some s => appears_in v s
  | None => False
  end.

(** The association list of a category as a handler reads it off the body:
    [cuisines = []] and the like. *)
Definition names_of (c : category) (b : body) : list str :=
  default []
    match c with
    | Cuisines => b_cuisines b
    | Types => b_types b
    | Neighborhoods => b_neighborhoods b
    | Tags => b_tags b
    end.

(** The names a restaurant object shows for a category. *)
Definition json_names (c : category) (o : restaurant_json) : list str :=
  match c with
  | Cuisines => j_cuisines o
  | Types => j_types o
  | Neighborhoods => j_neighborhoods o
  | Tags => map tj_name (j_tags o)
  end.

(** The join rows of the restaurants other than [rid]. *)
Definition others (rid : N) (ls : list link) : list link :=
  filter (fun l => negb (restaurant_id l =? rid)) ls.


(** An equality filter: absent or empty it lets every row through,
    otherwise the column has to be the value. *)
Definition equals (p : option str) (col : option str) : bool :=
  match p with
  | Some v =>
      if truthy v
      then match col with Some x => str_eqb x v | None => false end
      else true
  | None => true
  end.

(** Borough, status and liked, which restrict the rows before grouping. *)
Definition passes_equality (q : query) (r : restaurant) : bool :=
  equals (q_boroughs q) (r_borough r)
  && equals (q_status q) (r_status r)
  && match q_liked q with
     | Some l => r_liked r =? (if str_eqb l (lit "true") then 1 else 0)
     | None => true
     end.

(** The containment patterns of the values a parameter names. *)
Definition patterns (p : option str) : list str :=
  map contains_pattern (values (default [] p)).

(** A set filter: at least one requested value matches the aggregate. *)
Definition one_of (c : category) (p : option str) : list having_condition :=
  if given p then [any_like c (patterns p)] else [].




(** The set filters of the development server: cuisines, then types. *)
Definition development_conditions (q : query) : list having_condition :=
  one_of Cuisines (q_cuisines q) ++ one_of Types (q_types q).

(** The search condition of the production server. *)
Definition text_matches (s : str) (db : database) (r : restaurant) : bool :=
  eval_having (search_all (contains_pattern s)) db r.

(** The term occurs in the name, the notes, what to order, the borough, or
    in a name linked to the restaurant. *)
Definition text_appears (s : str) (db : database) (r : restaurant) : Prop :=
  appears_in s (r_name r) \/ appears_in_column s (r_notes r)
  \/ appears_in_column s (r_what_to_order r)
  \/ appears_in_column s (r_borough r)
  \/ exists c n, In n (linked_names c db (r_id r)) /\ appears_in s n.

(** A set parameter that is given names at least one value. *)
Definition names_a_value (p : option str) : bool :=
  negb (given p)
  || match values (default [] p) with [] => false | _ :: _ => true end.


(** The page holds every row: no offset, and no limit below the number of
    restaurants. *)
Definition page_covers (limit offset : Z) (db : database) : Prop :=
  (offset <= 0)%Z
  /\ ((limit < 0)%Z \/ (Z.of_nat (List.length (restaurants db)) <= limit)%Z).

(** What the text after [GROUP BY r.id] has to be for the conditions to be
    one HAVING clause. *)
Definition having_clause (conds : list having_condition) : list fragment :=
  match conds with
  | [] => []
  | h :: hs => HAVING h :: map AND hs
  end.

End Spec.
Import Spec.

(** ** Sample requests and databases *)

Module Samples.

Definition sample_now : str := lit "2024-05-01 12:00:00".

(** A body that carries a name and nothing else. *)
Definition named (name : string) : body :=
  mkBody (Some (lit name)) None None None None None None None None None None
    None None None None None None None None.

Definition with_borough (v : string) (b : body) : body :=
  mkBody (b_name b) (b_neighborhood b) (Some (lit v)) (b_status b) (b_liked b)
    (b_happy_hour b) (b_happy_hour_start_time b) (b_happy_hour_end_time b)
    (b_happy_hour_data b) (b_has_happy_hour b) (b_notes b) (b_what_to_order b)
    (b_website_link b) (b_latitude b) (b_longitude b) (b_cuisines b) (b_types b)
    (b_neighborhoods b) (b_tags b).

Definition with_status (v : string) (b : body) : body :=
  mkBody (b_name b) (b_neighborhood b) (b_borough b) (Some (lit v)) (b_liked b)
    (b_happy_hour b) (b_happy_hour_start_time b) (b_happy_hour_end_time b)
    (b_happy_hour_data b) (b_has_happy_hour b) (b_notes b) (b_what_to_order b)
    (b_website_link b) (b_latitude b) (b_longitude b) (b_cuisines b) (b_types b)
    (b_neighborhoods b) (b_tags b).

Definition with_notes (v : string) (b : body) : body :=
  mkBody (b_name b) (b_neighborhood b) (b_borough b) (b_status b) (b_liked b)
    (b_happy_hour b) (b_happy_hour_start_time b) (b_happy_hour_end_time b)
    (b_happy_hour_data b) (b_has_happy_hour b) (Some (lit v)) (b_what_to_order b)
    (b_website_link b) (b_latitude b) (b_longitude b) (b_cuisines b) (b_types b)
    (b_neighborhoods b) (b_tags b).

Definition with_cuisines (cs : list string) (b : body) : body :=
  mkBody (b_name b) (b_neighborhood b) (b_borough b) (b_status b) (b_liked b)
    (b_happy_hour b) (b_happy_hour_start_time b) (b_happy_hour_end_time b)
    (b_happy_hour_data b) (b_has_happy_hour b) (b_notes b) (b_what_to_order b)
    (b_website_link b) (b_latitude b) (b_longitude b) (Some (map lit cs))
    (b_types b) (b_neighborhoods b) (b_tags b).

Definition with_tags (ts : list string) (b : body) : body :=
  mkBody (b_name b) (b_neighborhood b) (b_borough b) (b_status b) (b_liked b)
    (b_happy_hour b) (b_happy_hour_start_time b) (b_happy_hour_end_time b)
    (b_happy_hour_data b) (b_has_happy_hour b) (b_notes b) (b_what_to_order b)
    (b_website_link b) (b_latitude b) (b_longitude b) (b_cuisines b) (b_types b)
    (b_neighborhoods b) (Some (map lit ts)).

(** [{name: "Joe's", cuisines: ["Diner"]}] *)
Definition joes : body := with_cuisines ["Diner"%string] (named "Joe's").

(** The database after [POST {name: "Osteria", borough: "Manhattan",
    cuisines: ["Italian"], tags: ["brunch"]}] on an empty one. *)
Definition osteria : body :=
  with_tags ["brunch"%string]
    (with_cuisines ["Italian"%string] (with_borough "Manhattan" (named "Osteria"))).

Definition one_place : database :=
  snd (Production.post_restaurants false sample_now osteria empty_database).



(** [?cuisines=Italian,Thai&boroughs=Manhattan] *)
Definition italian_thai_manhattan : query :=
  mkQuery None (Some (lit "Italian,Thai")) None None None
    (Some (lit "Manhattan")) None None None None.

(** One Manhattan restaurant whose notes mention a negroni. *)
Definition bar : body :=
  with_notes "Order the Negroni" (with_borough "Manhattan" (named "Bar Pisellino")).

Definition bar_place : database :=
  snd (Production.post_restaurants false sample_now bar empty_database).


(** [?search=negroni&cuisines=Thai] *)
Definition negroni_thai : query :=
  mkQuery (Some (lit "negroni")) (Some (lit "Thai")) None None None None
    None None None None.


End Samples.
Import Samples.

From Stdlib Require Import Sorted Permutation.

(** ** The reference lists and the statistics *)

Module Lists.

(** [ORDER BY <key>] in code-point order, as a stable insertion sort. *)
Fixpoint insert_by {A : Type} (key : A -> str) (x : A) (l : list A) : list A :=
  match l with
  | [] => [x]
  | y :: l' => if str_leb (key x) (key y) then x :: l else y :: insert_by key x l'
  end.

Definition order_by {A : Type} (key : A -> str) (l : list A) : list A :=
  fold_right (insert_by key) [] l.

(** The values of a column [WHERE <column> IS NOT NULL]. *)
Definition not_null (column : restaurant -> option str) (rs : list restaurant)
  : list str :=
  flat_map (fun r => match column r with Some v => [v] | None => [] end) rs.

(** GET /api/cuisines, /api/types and /api/tags: the rows, by name.  The
    handlers answer 500 only when the SELECT itself fails. *)
Definition get_cuisines (db : database) : list lookup := order_by l_name (cuisines db).
Definition get_types (db : database) : list lookup := order_by l_name (types db).
Definition get_tags (db : database) : list tag := order_by tg_name (tags db).

(** GET /api/neighborhoods of the production server: [rows.map(row =>
    row.name)]. *)
Definition get_neighborhoods (db : database) : list str :=
  map l_name (order_by l_name (neighborhoods db)).

(** GET /api/neighborhoods of the development server: [SELECT DISTINCT
    neighborhood FROM restaurants WHERE neighborhood IS NOT NULL ORDER BY
    neighborhood]. *)
Definition get_legacy_neighborhoods (db : database) : list str :=
  order_by (fun v => v) (distinct (not_null r_neighborhood (restaurants db))).

(** GET /api/boroughs: [SELECT DISTINCT borough FROM restaurants WHERE
    borough IS NOT NULL ORDER BY borough]. *)
Definition get_boroughs (db : database) : list str :=
  order_by (fun v => v) (distinct (not_null r_borough (restaurants db))).

(** GET /api/stats: the six counts. *)
Record stats := mkStats {
  total_restaurants : nat;
  visited_restaurants : nat;
  liked_restaurants : nat;
  total_cuisines : nat;
  total_types : nat;
  total_tags : nat
}.

Definition is_visited (r : restaurant) : bool :=
  match r_status r with Some s => str_eqb s (lit "Visited") | None => false end.

Definition get_stats (db : database) : stats :=
  mkStats (List.length (restaurants db))
    (List.length (filter is_visited (restaurants db)))
    (List.length (filter (fun r => r_liked r =? 1) (restaurants db)))
    (List.length (cuisines db)) (List.length (types db)) (List.length (tags db)).

End Lists.

(** ** The scratchpad *)

Module Scratchpad.

(** Modelled from the spec: the table [scratchpad] is not created in the
    sources; the statements name its columns [id], [content] and
    [updated_at], and INSERT OR REPLACE makes [id] its key. *)
Record note := mkNote {
  n_id : N;
  n_content : option str;
  n_updated_at : option str
}.

Definition table := list note.

(** GET /api/scratchpad: [{ content: row ? row.content : '' }], the content
    being a string or null. *)
Definition get_scratchpad (t : table) : option str :=
  match find (fun n => n_id n =? 1) t with
  | Some row => n_content row
  | None => Some []
  end.

(** POST /api/scratchpad: [INSERT OR REPLACE INTO scratchpad (id, content,
    updated_at) VALUES (1, ?, CURRENT_TIMESTAMP)]; a body without [content]
    binds NULL. *)
Definition post_scratchpad (now : str) (content : option str) (t : table) : table :=
  filter (fun n => negb (n_id n =? 1)) t ++ [mkNote 1 content (Some now)].

End Scratchpad.

(** ** The happy hour texts *)

Module HappyHour.

Fixpoint starts_with (k s : str) : bool :=
  match k, s with
  | [], _ => true
  | _ :: _, [] => false
  | a :: k', b :: s' => (a =? b) && starts_with k' s'
  end.

(** [s.includes(k)] *)
Fixpoint includes (s k : str) : bool :=
  starts_with k s || match s with [] => false | _ :: s' => includes s' k end.

(** One entry of [schedules]; [drinks] and [food] are the two lists of
    [offers], [notes] its text. *)
Record schedule := mkSchedule {
  days : list str;
  startTime : option str;
  endTime : option str;
  drinks : list str;
  food : list str;
  notes : str
}.

(** [x || null] *)
Definition or_null (x : option str) : option str :=
  match x with
  | Some s => if truthy s then Some s else None
  | None => None
  end.

Definition weekdays : list str :=
  [lit "monday"; lit "tuesday"; lit "wednesday"; lit "thursday"; lit "friday"].

Definition weekend : list str := [lit "saturday"; lit "sunday"].

Section Parse.

(** [String.prototype.toLowerCase], which the parser applies before it
    looks for the names of the days. *)
Variable toLowerCase : str -> str.

(** [if (text.includes(long) || text.includes(short)) days.push(long)] *)
Definition day (text : str) (long short : string) : list str :=
  if includes text (lit long) || includes text (lit short) then [lit long] else [].

(** The [schedules] of the result. *)
Definition parseExistingHappyHour (happyHourText startTime endTime : option str)
  : list schedule :=
  match happyHourText with
  | None => []
  | Some original =>
      if negb (truthy original) then []
      else
        let text := toLowerCase original in
        let days :=
          day text "monday" "mon" ++ day text "tuesday" "tue"
          ++ day text "wednesday" "wed" ++ day text "thursday" "thu"
          ++ day text "friday" "fri" ++ day text "saturday" "sat"
          ++ day text "sunday" "sun" in
        let days :=
          if includes text (lit "mon-fri") || includes text (lit "monday-friday")
             || includes text (lit "weekday")
          then weekdays else days in
        let days := if includes text (lit "weekend") then weekend else days in
        let days :=
          if includes text (lit "daily") || includes text (lit "every day")
          then weekdays ++ weekend else days in
        let days :=
          if (List.length days =? 0)%nat then [lit "unknown"] else days in
        [mkSchedule days (or_null startTime) (or_null endTime) [] [] original]
  end.

End Parse.

End HappyHour.

(** ** The neighborhood migration *)

Module Migration.

Inductive reply :=
| NothingToMigrate
| Migrated (migratedRestaurants totalNeighborhoods : nat).

(** [neighborhood] is neither NULL nor the empty text. *)
Definition has_legacy (r : restaurant) : bool :=
  match r_neighborhood r with Some n => truthy n | None => false end.

(** POST /api/migrate-neighborhoods.  The reply is sent from the callback of
    the last linking statement, when the count of completed pairs reaches
    their total; when the selected restaurants yield no pair at all there is
    no statement and hence no reply ([None]), and nothing is written. *)
Definition migrate_neighborhoods (db : database) : option reply * database :=
  let rs := filter has_legacy (restaurants db) in
  if (List.length rs =? 0)%nat then (Some NothingToMigrate, db)
  else
    let work := Production.migration_work (restaurants db) in
    match work with
    | [] => (None, db)
    | _ :: _ =>
        (Some (Migrated (List.length rs) (List.length work)),
         Production.migrate_links work db)
    end.

End Migration.

(** ** The happy hour migration *)

Module HappyHourJson.

Inductive reply :=
| NoRestaurants
| Migrated (migratedRestaurants : nat).

(** The WHERE clause of its SELECT: [happy_hour] is neither NULL nor the
    empty text, and [happy_hour_data] is NULL or the empty text. *)
Definition lacks_json (r : restaurant) : bool :=
  match r_happy_hour r with Some h => truthy h | None => false end
  && match r_happy_hour_data r with Some d => negb (truthy d) | None => true end.

Section Json.

Variable toLowerCase : str -> str.

(** [JSON.stringify] of the object that holds the schedules. *)
Variable stringify : list HappyHour.schedule -> str.

(** The text bound to [happy_hour_data] for one selected row. *)
Definition happyHourData (r : restaurant) : str :=
  stringify
    (HappyHour.parseExistingHappyHour toLowerCase (r_happy_hour r)
       (r_happy_hour_start_time r) (r_happy_hour_end_time r)).

(** POST /api/migrate-happy-hour-json: one [UPDATE restaurants SET
    happy_hour_data = ? WHERE id = ?] per selected row, outside any
    transaction; the reply counts the selected rows. *)
Definition migrate_happy_hour_json (db : database) : reply * database :=
  let rs := filter lacks_json (restaurants db) in
  if (List.length rs =? 0)%nat then (NoRestaurants, db)
  else
    (Migrated (List.length rs),
     fold_left
       (fun d r =>
          snd (Production.update_restaurants
                 [Production.set_happy_hour_data (happyHourData r)] (r_id r) d))
       rs db).

End Json.

End HappyHourJson.

(** ** Vocabulary of the further properties *)

Module Facts.

(** The lookup tables keep their keys: no id and no name twice. *)
Definition keyed (db : database) : Prop :=
  forall c, NoDup (map fst (entries c db)) /\ NoDup (map snd (entries c db)).

(** The value of a nullable column after a partial update. *)
Definition supplied {A : Type} (new : option A) (old : option A) : option A :=
  match new with
  | Some v => Some v
  | None => old
  end.

(** A row after an UPDATE that sets the scalar fields the body carries and
    the modification time. *)
Definition patched (now : str) (b : body) (r : restaurant) : restaurant :=
  mkRestaurant (r_id r)
    (match b_name b with Some v => trim v | None => r_name r end)
    (supplied (b_neighborhood b) (r_neighborhood r))
    (supplied (b_borough b) (r_borough r))
    (supplied (b_status b) (r_status r))
    (match b_liked b with Some v => Production.bit v | None => r_liked r end)
    (supplied (b_happy_hour b) (r_happy_hour r))
    (supplied (b_happy_hour_start_time b) (r_happy_hour_start_time r))
    (supplied (b_happy_hour_end_time b) (r_happy_hour_end_time r))
    (supplied (b_happy_hour_data b) (r_happy_hour_data r))
    (match b_has_happy_hour b with
     | Some v => Production.bit v
     | None => r_has_happy_hour r
     end)
    (supplied (b_notes b) (r_notes r))
    (supplied (b_what_to_order b) (r_what_to_order r))
    (supplied (b_website_link b) (r_website_link r))
    (supplied (b_latitude b) (r_latitude r))
    (supplied (b_longitude b) (r_longitude r))
    (r_created_at r) (Some now).

(** Rows in the order of their names. *)
Definition by_name {A : Type} (key : A -> str) (a b : A) : Prop :=
  str_leb (key a) (key b) = true.

(** A search term without LIKE wildcard and without comma. *)
Definition plain (s : str) : Prop :=
  ~ In percent s /\ ~ In underscore s /\ ~ In comma s.

(** A set parameter that names no value: absent, empty, or only commas and
    white space. *)
Definition valueless (p : option str) : Prop := values (default [] p) = [].

(** The query without its four set parameters. *)
Definition without_sets (q : query) : query :=
  mkQuery (q_search q) None None None None (q_boroughs q) (q_status q)
    (q_liked q) (q_limit q) (q_offset q).

(** [?cuisines=,&tags= , &status=visited] *)
Definition commas_visited : query :=
  mkQuery None (Some (lit ",")) None (Some (lit " , ")) None None
    (Some (lit "visited")) None None None.



(** The names the reference list of a category shows. *)
Definition reference_names (c : category) (db : database) : list str :=
  match c with
  | Cuisines => map l_name (Lists.get_cuisines db)
  | Types => map l_name (Lists.get_types db)
  | Neighborhoods => Lists.get_neighborhoods db
  | Tags => map tg_name (Lists.get_tags db)
  end.

(** One where a flag holds, zero where it does not. *)
Definition count_if (b : bool) : nat := if b then 1%nat else 0%nat.

(** The texts the happy hour parser looks for; each longer form it tests
    (monday, mon-fri, monday-friday and the like) holds one of them. *)
Definition keywords : list str :=
  map lit ["mon"; "tue"; "wed"; "thu"; "fri"; "sat"; "sun"; "weekday";
           "weekend"; "daily"; "every day"]%string.

(** [String.prototype.toLowerCase] on ASCII text. *)
Definition ascii_lower (s : str) : str := map fold_case s.

(** A row with the JSON text of its happy hour in place. *)
Definition with_json (toLowerCase : str -> str)
  (stringify : list HappyHour.schedule -> str) (r : restaurant) : restaurant :=
  if HappyHourJson.lacks_json r
  then Production.assign
         (Production.set_happy_hour_data
            (HappyHourJson.happyHourData toLowerCase stringify r)) r
  else r.

(** One restaurant with a happy hour text and no JSON yet. *)
Definition happy_bar : database :=
  with_restaurants
    [mkRestaurant 1 (lit "Bar") None None None 0 (Some (lit "Daily 4-6pm"))
       (Some (lit "16:00")) (Some (lit "18:00")) None 1 None None None None
       None None None]
    empty_database.

(** What the UPDATE for the selected row [s] makes of a row [r]. *)
Definition json_step (toLowerCase : str -> str)
  (stringify : list HappyHour.schedule -> str) (s r : restaurant) : restaurant :=
  if r_id r =? r_id s
  then Production.assign
         (Production.set_happy_hour_data
            (HappyHourJson.happyHourData toLowerCase stringify s)) r
  else r.

(** The two rounds of the neighborhood migration. *)
Definition ensure_neighborhoods (work : list (N * str)) (db : database) : database :=
  fold_left (fun d w => insert_or_ignore Neighborhoods (snd w) d) work db.

Definition link_neighborhoods (work : list (N * str)) (db : database) : database :=
  fold_left
    (fun d w =>
       fold_left
         (fun d' i => insert_or_ignore_link Neighborhoods (mkLink (fst w) i) d')
         (ids_named Neighborhoods (snd w) d) d)
    work db.

(** [db'] is [db] with more rows in [restaurant_neighborhoods], and nothing
    else changed. *)
Definition more_neighborhood_links (db db' : database) : Prop :=
  restaurants db' = restaurants db
  /\ (forall c, entries c db' = entries c db)
  /\ (forall c, c <> Neighborhoods -> links c db' = links c db)
  /\ exists new,
       links Neighborhoods db' = links Neighborhoods db ++ new.

(** [?search=osteria] *)
Definition search_osteria : query :=
  mkQuery (Some (lit "osteria")) None None None None None None None None None.

End Facts.
Import Facts.

(** * Properties *)

(** ** Text *)

Lemma str_eqb_eq (a b : str) : str_eqb a b = true <-> a = b.
Proof.
  unfold str_eqb. destruct (list_eq_dec N.eq_dec a b); split; congruence.
Qed.

Lemma str_eqb_refl (a : str) : str_eqb a a = true.
Proof. now apply str_eqb_eq. Qed.

Lemma str_eqb_neq (a b : str) : str_eqb a b = false <-> a <> b.
Proof.
  unfold str_eqb. destruct (list_eq_dec N.eq_dec a b); split; congruence.
Qed.

Lemma truthy_not_nil (s : str) : truthy s = true <-> s <> [].
Proof. destruct s; simpl; split; congruence. Qed.

Lemma trim_start_head (s : str) c t :
  trim_start s = c :: t -> is_white_space c = false.
Proof.
  induction s as [|a s IH]; simpl; [discriminate|].
  destruct (is_white_space a) eqn:E; [exact IH|].
  intros H. injection H as -> _. exact E.
Qed.

Lemma trim_start_nil_iff (s : str) :
  trim_start s = [] <-> forallb is_white_space s = true.
Proof.
  induction s as [|a s IH]; simpl; [tauto|].
  destruct (is_white_space a); simpl; [exact IH|].
  split; discriminate.
Qed.

Lemma forallb_rev {A} (f : A -> bool) (l : list A) :
  forallb f (rev l) = forallb f l.
Proof.
  induction l as [|a l IH]; simpl; [reflexivity|].
  rewrite forallb_app, IH. simpl. rewrite andb_true_r. apply andb_comm.
Qed.

(** [trim] leaves nothing exactly of the strings made of white space. *)
Lemma trim_nil_iff (s : str) : trim s = [] <-> blank s.
Proof.
  unfold trim, trim_end, blank. split.
  - intros H.
    assert (H1 : trim_start (rev (trim_start s)) = []).
    { apply (f_equal (@rev char)) in H. now rewrite rev_involutive in H. }
    apply trim_start_nil_iff in H1. rewrite forallb_rev in H1.
    destruct (trim_start s) as [|c t] eqn:E.
    + now apply trim_start_nil_iff.
    + apply trim_start_head in E. simpl in H1. rewrite E in H1. discriminate.
  - intros H. apply trim_start_nil_iff in H. rewrite H. reflexivity.
Qed.

Lemma like_percent_unfold (pat s : str) :
  like (percent :: pat) s
  = like pat s || match s with [] => false | _ :: t => like (percent :: pat) t end.
Proof. destruct s; reflexivity. Qed.

Lemma like_percent_skip (pat pre t : str) :
  like pat t = true -> like (percent :: pat) (pre ++ t) = true.
Proof.
  intros H. induction pre as [|c pre IH].
  - simpl app. rewrite like_percent_unfold, H. reflexivity.
  - simpl app. rewrite like_percent_unfold, IH. apply orb_true_r.
Qed.

Lemma like_percent_all (s : str) : like [percent] s = true.
Proof.
  induction s as [|c s IH]; [reflexivity|].
  rewrite like_percent_unfold, IH. apply orb_true_r.
Qed.

Lemma like_literal (v mid post : str) :
  map fold_case mid = map fold_case v ->
  like (v ++ [percent]) (mid ++ post) = true.
Proof.
  revert mid. induction v as [|p v IH]; intros mid H.
  - destruct mid; [|discriminate]. apply like_percent_all.
  - destruct mid as [|c mid]; [discriminate|].
    simpl in H. injection H as Hc Hm. specialize (IH mid Hm).
    destruct (p =? percent) eqn:E.
    + apply N.eqb_eq in E. subst p.
      change (like (percent :: (v ++ [percent])) ([c] ++ (mid ++ post)) = true).
      now apply like_percent_skip.
    + simpl. rewrite E, Hc, N.eqb_refl, IH, orb_true_r. reflexivity.
Qed.

(** A term that occurs in a text matches it under [%term%], whatever
    wildcards the term itself contains. *)
Lemma like_contains (v s : str) :
  appears_in v s -> like (contains_pattern v) s = true.
Proof.
  intros (pre & mid & post & -> & H).
  apply like_percent_skip. now apply like_literal.
Qed.


Lemma appears_in_app (v s pre post : str) :
  appears_in v s -> appears_in v (pre ++ s ++ post).
Proof.
  intros (a & mid & b & -> & H). exists (pre ++ a), mid, (b ++ post).
  split; [|exact H]. now rewrite <- !app_assoc.
Qed.

Lemma join_contains (sep : char) (l : list str) (n : str) :
  In n l -> exists pre post, join sep l = pre ++ n ++ post.
Proof.
  induction l as [|w l IH]; [contradiction|].
  intros [->|H].
  - destruct l as [|w' l].
    + exists [], []. simpl. now rewrite app_nil_r.
    + exists [], (sep :: join sep (w' :: l)). reflexivity.
  - destruct (IH H) as (pre & post & E).
    destruct l as [|w' l]; [contradiction|].
    exists (w ++ sep :: pre), post.
    change (join sep (w :: w' :: l)) with (w ++ sep :: join sep (w' :: l)).
    rewrite E, <- app_assoc. reflexivity.
Qed.

Lemma In_distinct (l : list str) (x : str) : In x (distinct l) <-> In x l.
Proof.
  induction l as [|a l IH]; simpl; [tauto|].
  rewrite filter_In, IH. split.
  - intros [H|[H _]]; auto.
  - intros [H|H]; auto.
    destruct (list_eq_dec N.eq_dec a x) as [E|E]; auto.
    right. split; [exact H|]. apply negb_true_iff. now apply str_eqb_neq.
Qed.


(** A name linked to the restaurant is matched by the containment pattern
    of any term that occurs in it. *)
Lemma like_group_concat (v n : str) (names : list str) :
  In n names -> appears_in v n ->
  like_column (contains_pattern v) (group_concat_distinct names) = true.
Proof.
  intros Hin Hv. destruct names as [|a names]; [contradiction|].
  unfold group_concat_distinct, like_column.
  apply like_contains.
  apply In_distinct in Hin.
  destruct (join_contains comma _ _ Hin) as (pre & post & ->).
  now apply appears_in_app.
Qed.

Lemma split_not_nil (sep : char) (s : str) : split sep s <> [].
Proof.
  induction s as [|c s IH]; simpl; [discriminate|].
  destruct (c =? sep); [discriminate|].
  destruct (split sep s); discriminate.
Qed.

Lemma split_app_sep (sep : char) (a b : str) :
  split sep (a ++ sep :: b) = split sep a ++ split sep b.
Proof.
  induction a as [|c a IH]; simpl.
  - now rewrite N.eqb_refl.
  - destruct (c =? sep); [now rewrite IH|].
    rewrite IH. pose proof (split_not_nil sep a) as Hn.
    destruct (split sep a); [congruence|reflexivity].
Qed.

Lemma split_no_sep (sep : char) (n : str) : ~ In sep n -> split sep n = [n].
Proof.
  induction n as [|c n IH]; simpl; [reflexivity|]. intros H.
  destruct (c =? sep) eqn:E.
  - apply N.eqb_eq in E. exfalso. apply H. now left.
  - rewrite IH; [reflexivity|]. intros Hn. apply H. now right.
Qed.

Lemma split_pieces_no_sep (sep : char) (s x : str) :
  In x (split sep s) -> ~ In sep x.
Proof.
  revert x. induction s as [|c s IH]; simpl; intros x.
  - intros [<-|[]]. simpl. tauto.
  - destruct (c =? sep) eqn:E.
    + intros [<-|H]; [simpl; tauto|now apply IH].
    + destruct (split sep s) as [|w ws]; [intros [<-|[]]|intros [<-|H]].
      * simpl. intros [->|[]]. now rewrite N.eqb_refl in E.
      * simpl. intros [->|H]; [now rewrite N.eqb_refl in E|].
        revert H. apply IH. now left.
      * apply IH. now right.
Qed.

Lemma split_join (sep : char) (l : list str) :
  l <> [] -> split sep (join sep l) = flat_map (split sep) l.
Proof.
  induction l as [|w l IH]; [congruence|]. intros _.
  destruct l as [|w' l].
  - simpl. now rewrite app_nil_r.
  - change (join sep (w :: w' :: l)) with (w ++ sep :: join sep (w' :: l)).
    rewrite split_app_sep, IH by discriminate. reflexivity.
Qed.

(** What is in front of the first separator stays in front: the first piece
    of [n ++ x] is [n] followed by the first piece of [x]. *)
Lemma split_prefix (sep : char) (n x : str) :
  ~ In sep n ->
  exists w ws, split sep x = w :: ws /\ split sep (n ++ x) = (n ++ w) :: ws.
Proof.
  intros Hn. induction n as [|c n IH]; simpl.
  - pose proof (split_not_nil sep x). destruct (split sep x) as [|w ws]; [congruence|].
    now exists w, ws.
  - destruct IH as (w & ws & E1 & E2); [intros H; apply Hn; now right|].
    exists w, ws. split; [exact E1|].
    destruct (c =? sep) eqn:E.
    + apply N.eqb_eq in E. exfalso. apply Hn. now left.
    + now rewrite E2.
Qed.

Lemma join_not_nil (sep : char) (l : list str) (n : str) :
  In n l -> n <> [] -> join sep l <> [].
Proof.
  intros Hin Hn. destruct (join_contains sep l n Hin) as (pre & post & ->).
  destruct n; [congruence|]. now destruct pre.
Qed.

(** ** Tables and statements *)

Lemma category_eq_or_neq (c c' : category) : c = c' \/ c <> c'.
Proof. destruct c, c'; (now left) || (right; discriminate). Qed.

Lemma links_with_links_same c ls db : links c (with_links c ls db) = ls.
Proof. now destruct c. Qed.

Lemma links_with_links_other c c' ls db :
  c <> c' -> links c' (with_links c ls db) = links c' db.
Proof. destruct c, c'; congruence || reflexivity. Qed.

Lemma entries_with_links c c' ls db :
  entries c' (with_links c ls db) = entries c' db.
Proof. now destruct c, c'. Qed.

Lemma restaurants_with_links c ls db :
  restaurants (with_links c ls db) = restaurants db.
Proof. now destruct c. Qed.

Lemma with_links_twice c l1 l2 db :
  with_links c l2 (with_links c l1 db) = with_links c l2 db.
Proof. now destruct c. Qed.

Lemma with_links_same c db : with_links c (links c db) db = db.
Proof. now destruct c, db. Qed.

Lemma links_append_entry c c' nm db :
  links c' (append_entry c nm db) = links c' db.
Proof. now destruct c, c'. Qed.

Lemma restaurants_append_entry c nm db :
  restaurants (append_entry c nm db) = restaurants db.
Proof. now destruct c. Qed.

Lemma entries_append_entry_same c nm db :
  entries c (append_entry c nm db)
  = entries c db ++ [(next_rowid (map fst (entries c db)), nm)].
Proof. destruct c; simpl; now rewrite map_app. Qed.

Lemma entries_append_entry_other c c' nm db :
  c <> c' -> entries c' (append_entry c nm db) = entries c' db.
Proof. destruct c, c'; congruence || reflexivity. Qed.

Lemma max_bounds (ids : list N) (x : N) :
  In x ids -> x <= fold_right N.max 0 ids.
Proof.
  induction ids as [|a ids IH]; simpl; [contradiction|].
  intros [->|H]; [lia|]. specialize (IH H). lia.
Qed.

(** The id of a new row is the id of no row of the table. *)
Lemma next_rowid_fresh (ids : list N) : ~ In (next_rowid ids) ids.
Proof.
  intros H. apply max_bounds in H. unfold next_rowid in H. lia.
Qed.

(** *** INSERT OR IGNORE into a lookup table *)

Lemma ioi_links c c' nm db : links c' (insert_or_ignore c nm db) = links c' db.
Proof.
  unfold insert_or_ignore. destruct (existsb _ _); [reflexivity|].
  apply links_append_entry.
Qed.

Lemma ioi_restaurants c nm db :
  restaurants (insert_or_ignore c nm db) = restaurants db.
Proof.
  unfold insert_or_ignore. destruct (existsb _ _); [reflexivity|].
  apply restaurants_append_entry.
Qed.

Lemma ioi_entries_grow c c' nm db :
  exists extra, entries c' (insert_or_ignore c nm db) = entries c' db ++ extra.
Proof.
  unfold insert_or_ignore. destruct (existsb _ _).
  - exists []. now rewrite app_nil_r.
  - destruct (category_eq_or_neq c c') as [<-|Hn].
    + rewrite entries_append_entry_same. eauto.
    + rewrite entries_append_entry_other by exact Hn.
      exists []. now rewrite app_nil_r.
Qed.

Lemma ioi_entry_present c nm db :
  exists i, In (i, nm) (entries c (insert_or_ignore c nm db)).
Proof.
  unfold insert_or_ignore.
  destruct (existsb _ _) eqn:E.
  - apply existsb_exists in E. destruct E as ([i n] & Hin & Hn).
    apply str_eqb_eq in Hn. simpl in Hn. subst n. now exists i.
  - rewrite entries_append_entry_same. eexists. apply in_or_app. right. now left.
Qed.

Lemma ioi_ids_nodup c c' nm db :
  NoDup (map fst (entries c' db)) ->
  NoDup (map fst (entries c' (insert_or_ignore c nm db))).
Proof.
  intros H. unfold insert_or_ignore. destruct (existsb _ _); [exact H|].
  destruct (category_eq_or_neq c c') as [<-|Hn].
  - rewrite entries_append_entry_same, map_app. simpl.
    apply NoDup_app; [exact H|repeat constructor; simpl; tauto|].
    intros a Ha [<-|[]]. revert Ha. apply next_rowid_fresh.
  - now rewrite entries_append_entry_other.
Qed.

(** *** The two rounds of statements of a list of names *)

Lemma ensure_names_cons w work db :
  ensure_names (w :: work) db
  = ensure_names work (insert_or_ignore (fst w) (trim (snd w)) db).
Proof. reflexivity. Qed.

Lemma ensure_names_links work c db : links c (ensure_names work db) = links c db.
Proof.
  revert db. induction work as [|w work IH]; intros db; [reflexivity|].
  now rewrite ensure_names_cons, IH, ioi_links.
Qed.

Lemma ensure_names_restaurants work db :
  restaurants (ensure_names work db) = restaurants db.
Proof.
  revert db. induction work as [|w work IH]; intros db; [reflexivity|].
  now rewrite ensure_names_cons, IH, ioi_restaurants.
Qed.

Lemma ensure_names_grow work c db :
  exists extra, entries c (ensure_names work db) = entries c db ++ extra.
Proof.
  revert db. induction work as [|w work IH]; intros db.
  - exists []. simpl. now rewrite app_nil_r.
  - rewrite ensure_names_cons.
    destruct (IH (insert_or_ignore (fst w) (trim (snd w)) db)) as (e2 & E2).
    destruct (ioi_entries_grow (fst w) c (trim (snd w)) db) as (e1 & E1).
    exists (e1 ++ e2). now rewrite E2, E1, app_assoc.
Qed.

Lemma ensure_names_present work c n db :
  In (c, n) work -> exists i, In (i, trim n) (entries c (ensure_names work db)).
Proof.
  revert db. induction work as [|w work IH]; intros db; [contradiction|].
  intros [->|H]; rewrite ensure_names_cons.
  - destruct (ioi_entry_present c (trim n) db) as (i & Hi).
    destruct (ensure_names_grow work c (insert_or_ignore c (trim n) db)) as (e & E).
    exists i. simpl fst. simpl snd. rewrite E. apply in_or_app. now left.
  - now apply IH.
Qed.

Lemma ensure_names_ids_nodup work c db :
  NoDup (map fst (entries c db)) ->
  NoDup (map fst (entries c (ensure_names work db))).
Proof.
  revert db. induction work as [|w work IH]; intros db H; [exact H|].
  rewrite ensure_names_cons. apply IH. now apply ioi_ids_nodup.
Qed.

(** *** INSERT into a join table *)

Lemma ids_named_entries c nm db db' :
  entries c db' = entries c db -> ids_named c nm db' = ids_named c nm db.
Proof. unfold ids_named. now intros ->. Qed.

Lemma In_ids_named c nm db i :
  In i (ids_named c nm db) <-> In (i, nm) (entries c db).
Proof.
  unfold ids_named. rewrite in_map_iff. split.
  - intros ([j n] & <- & H). apply filter_In in H. destruct H as (H & E).
    apply str_eqb_eq in E. simpl in *. now subst.
  - intros H. exists (i, nm). split; [reflexivity|].
    apply filter_In. split; [exact H|]. apply str_eqb_refl.
Qed.

Lemma insert_rows_ok u c rid ids db db' :
  for_each (fun i => insert_link u c (mkLink rid i)) ids db = Ok db' ->
  db' = with_links c (links c db ++ map (mkLink rid) ids) db.
Proof.
  revert db. induction ids as [|i ids IH]; intros db; simpl.
  - intros H. injection H as <-. now rewrite app_nil_r, with_links_same.
  - unfold insert_link at 1. destruct (u && _); simpl; [discriminate|].
    intros H. apply IH in H. rewrite H.
    now rewrite links_with_links_same, with_links_twice, <- app_assoc.
Qed.

Lemma insert_links_named_ok u c rid nm db db' :
  insert_links_named u c rid nm db = Ok db' ->
  db' = with_links c (links c db ++ map (mkLink rid) (ids_named c nm db)) db.
Proof. apply insert_rows_ok. Qed.


Lemma insert_rows_duplicates u c rid ids db :
  u = false ->
  for_each (fun i => insert_link u c (mkLink rid i)) ids db
  = Ok (with_links c (links c db ++ map (mkLink rid) ids) db).
Proof.
  intros ->. revert db. induction ids as [|i ids IH]; intros db; simpl.
  - now rewrite app_nil_r, with_links_same.
  - unfold insert_link at 1. simpl. rewrite IH.
    now rewrite links_with_links_same, with_links_twice, <- app_assoc.
Qed.

Lemma link_names_spec u rid work db db' :
  link_names u rid work db = Ok db' ->
  restaurants db' = restaurants db
  /\ (forall c, entries c db' = entries c db)
  /\ (forall c, exists extra,
        links c db' = links c db ++ extra
        /\ forall l, In l extra <->
             exists n i, In (c, n) work /\ In (i, trim n) (entries c db)
                         /\ l = mkLink rid i).
Proof.
  revert db. induction work as [|[cw nw] work IH]; intros db H.
  - injection H as <-. repeat split; trivial. intros c. exists [].
    rewrite app_nil_r. split; [reflexivity|]. intros l. split; [contradiction|].
    intros (n & i & [] & _).
  - unfold link_names in H. simpl in H.
    destruct (insert_links_named u cw rid (trim nw) db) as [db1|] eqn:E1;
      [|discriminate].
    simpl in H. apply insert_links_named_ok in E1.
    apply IH in H. destruct H as (Hr & He & Hl).
    assert (He1 : forall c, entries c db1 = entries c db)
      by (intros c; rewrite E1; apply entries_with_links).
    split; [rewrite Hr, E1; apply restaurants_with_links|].
    split; [intros c; now rewrite He|].
    intros c. destruct (Hl c) as (extra & Hx & Hin).
    destruct (category_eq_or_neq cw c) as [<-|Hn].
    + exists (map (mkLink rid) (ids_named cw (trim nw) db) ++ extra). split.
      * rewrite Hx, E1, links_with_links_same. now rewrite app_assoc.
      * intros l. rewrite in_app_iff, Hin, in_map_iff. split.
        -- intros [(i & <- & Hi)|(n & i & Hw & Hi & ->)].
           ++ exists nw, i. apply In_ids_named in Hi. simpl. auto.
           ++ exists n, i. rewrite He1 in Hi. simpl. auto.
        -- intros (n & i & [Hw|Hw] & Hi & ->).
           ++ injection Hw as <-. left. exists i. split; [reflexivity|].
              now apply In_ids_named.
           ++ right. exists n, i. rewrite He1. auto.
    + exists extra. split.
      * rewrite Hx, E1. now rewrite links_with_links_other.
      * intros l. rewrite Hin. split.
        -- intros (n & i & Hw & Hi & ->). exists n, i. rewrite He1 in Hi.
           simpl. auto.
        -- intros (n & i & [Hw|Hw] & Hi & ->); [congruence|].
           exists n, i. rewrite He1. auto.
Qed.

Lemma link_names_duplicates rid work db :
  exists db', link_names false rid work db = Ok db'.
Proof.
  revert db. induction work as [|w work IH]; intros db; [now exists db|].
  unfold link_names. simpl. unfold insert_links_named at 1.
  rewrite insert_rows_duplicates by reflexivity. simpl. apply IH.
Qed.

(** *** Reading a restaurant back *)

Lemma linked_names_in c db rid i nm :
  In (mkLink rid i) (links c db) -> In (i, nm) (entries c db) ->
  In nm (linked_names c db rid).
Proof.
  intros Hl He. unfold linked_names. apply in_flat_map.
  exists (mkLink rid i). split; [exact Hl|]. simpl. rewrite N.eqb_refl.
  apply in_map_iff. exists (i, nm). split; [reflexivity|].
  apply filter_In. split; [exact He|]. simpl. apply N.eqb_refl.
Qed.

Lemma linked_names_inv c db rid nm :
  In nm (linked_names c db rid) ->
  exists i, In (mkLink rid i) (links c db) /\ In (i, nm) (entries c db).
Proof.
  unfold linked_names. intros H. apply in_flat_map in H.
  destruct H as ([r i] & Hl & H). simpl in H.
  destruct (r =? rid) eqn:E; [|contradiction]. apply N.eqb_eq in E. subst r.
  apply in_map_iff in H. destruct H as ([j n] & <- & H).
  apply filter_In in H. destruct H as (H & Ej). simpl in Ej.
  apply N.eqb_eq in Ej. subst j. now exists i.
Qed.

Lemma linked_tags_in db rid t :
  In (mkLink rid (tg_id t)) (restaurant_tags db) -> In t (tags db) ->
  In (tg_name t ++ colon :: tg_color t) (linked_tags db rid).
Proof.
  intros Hl Ht. unfold linked_tags. apply in_flat_map.
  exists (mkLink rid (tg_id t)). split; [exact Hl|]. simpl. rewrite N.eqb_refl.
  apply in_map_iff. exists t. split; [reflexivity|].
  apply filter_In. split; [exact Ht|]. apply N.eqb_refl.
Qed.

(** A linked name without a comma is one of the pieces of the aggregate. *)
Lemma split_names_in (names : list str) (nm : str) :
  In nm names -> nm <> [] -> ~ In comma nm ->
  In nm (split_names (group_concat_distinct names)).
Proof.
  intros Hin Hne Hc. destruct names as [|a names]; [contradiction|].
  unfold group_concat_distinct, split_names.
  apply In_distinct in Hin.
  pose proof (join_not_nil comma _ _ Hin Hne) as Hj.
  apply truthy_not_nil in Hj. rewrite Hj.
  rewrite split_join by (intros E; rewrite E in Hin; contradiction).
  apply in_flat_map. exists nm. split; [exact Hin|].
  rewrite split_no_sep by exact Hc. now left.
Qed.

Lemma split_names_no_comma (agg : option str) (x : str) :
  In x (split_names agg) -> ~ In comma x.
Proof.
  destruct agg as [s|]; simpl; [|contradiction].
  destruct (truthy s); [|contradiction]. apply split_pieces_no_sep.
Qed.

Lemma split_pieces_subset (sep : char) (s x : str) (c : char) :
  In x (split sep s) -> In c x -> In c s.
Proof.
  revert x. induction s as [|a s IH]; simpl; intros x.
  - intros [<-|[]] [].
  - destruct (a =? sep).
    + intros [<-|H] Hc; [contradiction|]. right. now apply (IH x).
    + destruct (split sep s) as [|w ws].
      * intros [<-|[]] [->|[]]. now left.
      * intros [<-|H] Hc.
        -- destruct Hc as [->|Hc]; [now left|]. right. apply (IH w); auto.
           now left.
        -- right. apply (IH x); auto. now right.
Qed.

Lemma parse_tag_name_piece (t : str) : In (tj_name (parse_tag t)) (split colon t).
Proof.
  unfold parse_tag. pose proof (split_not_nil colon t).
  destruct (split colon t) as [|name [|color rest]]; [congruence| |]; now left.
Qed.

(** A tag whose name has neither comma nor colon shows under that name. *)
Lemma tag_names_in (values : list str) (nm col : str) :
  In (nm ++ colon :: col) values -> ~ In comma nm -> ~ In colon nm ->
  In nm (map tj_name
           (map parse_tag (split_names (group_concat_distinct values)))).
Proof.
  intros Hin Hc Hk. destruct values as [|a values]; [contradiction|].
  unfold group_concat_distinct, split_names.
  apply In_distinct in Hin.
  assert (Hj : truthy (join comma (distinct (a :: values))) = true).
  { apply truthy_not_nil. apply (join_not_nil comma _ _ Hin).
    now destruct nm. }
  rewrite Hj, split_join by (intros E; rewrite E in Hin; contradiction).
  destruct (split_prefix comma nm (colon :: col) Hc) as (w & ws & E1 & E2).
  assert (Hw : exists col', w = colon :: col').
  { simpl in E1. change (58 =? comma) with false in E1.
    destruct (split comma col) as [|w' ws']; injection E1 as <- _; eauto. }
  destruct Hw as (col' & ->).
  rewrite map_map. apply in_map_iff. exists (nm ++ colon :: col'). split.
  - unfold parse_tag. rewrite split_app_sep, split_no_sep by exact Hk.
    pose proof (split_not_nil colon col').
    destruct (split colon col') as [|x xs]; [congruence|]. reflexivity.
  - apply in_flat_map. eexists. split; [exact Hin|]. rewrite E2. now left.
Qed.

Lemma tag_names_no_comma (agg : option str) (x : str) :
  In x (map tj_name (map parse_tag (split_names agg))) -> ~ In comma x.
Proof.
  rewrite map_map. intros H. apply in_map_iff in H.
  destruct H as (t & <- & Ht). apply split_names_no_comma in Ht.
  intros Hc. apply Ht.
  apply (split_pieces_subset colon t _ comma (parse_tag_name_piece t) Hc).
Qed.


Lemma find_by_id (id : N) (rs : list restaurant) :
  In id (map r_id rs) ->
  exists row, find (fun r => r_id r =? id) rs = Some row /\ r_id row = id.
Proof.
  intros H. destruct (find (fun r => r_id r =? id) rs) as [row|] eqn:E.
  - exists row. split; [reflexivity|]. apply find_some in E.
    now apply N.eqb_eq.
  - apply in_map_iff in H. destruct H as (r & Hr & Hin).
    apply (find_none _ _ E) in Hin. rewrite Hr, N.eqb_refl in Hin. discriminate.
Qed.

(** *** POST: what a created restaurant is linked to *)

Lemma In_work c n cs ts ns gs :
  In (c, n)
    (map (pair Cuisines) cs ++ map (pair Types) ts
     ++ map (pair Neighborhoods) ns ++ map (pair Tags) gs)
  <-> In n match c return list str with
           | Cuisines => cs | Types => ts | Neighborhoods => ns | Tags => gs
           end.
Proof.
  rewrite !in_app_iff, !in_map_iff. split.
  - intros [H|[H|[H|H]]]; destruct H as (x & E & H); injection E as <- <-;
      exact H.
  - intros H. destruct c; [left|right; left|right; right; left|right; right; right];
      now exists n.
Qed.

Lemma created_spec u now b db N db' :
  Production.post_restaurants u now b db = (Created N, db') ->
  N = next_rowid (map r_id (restaurants db))
  /\ (exists row, restaurants db' = restaurants db ++ [row] /\ r_id row = N
                  /\ r_status row = Some (default (lit "Unvisited") (b_status b))
                  /\ r_liked row = Production.bit (default false (b_liked b)))
  /\ (forall c, exists extra,
        links c db' = links c db ++ extra
        /\ forall l, In l extra <->
             exists n i, In n (names_of c b) /\ In (i, trim n) (entries c db')
                         /\ l = mkLink N i)
  /\ (forall c n, In n (names_of c b) -> exists i, In (i, trim n) (entries c db'))
  /\ (forall c, exists extra, entries c db' = entries c db ++ extra)
  /\ (forall c, NoDup (map fst (entries c db)) -> NoDup (map fst (entries c db'))).
Proof.
  unfold Production.post_restaurants.
  destruct (b_name b) as [name|]; [|discriminate].
  destruct (negb (truthy name) || negb (truthy (trim name))); [discriminate|].
  unfold Production.handleRestaurantRelationships.
  set (work := map (pair Cuisines) _ ++ _).
  set (row := mkRestaurant _ _ _ _ _ _ _ _ _ _ _ _ _ _ _ _ _ _).
  set (db1 := with_restaurants _ db).
  destruct (link_names u _ work (ensure_names work db1)) as [db2|] eqn:E;
    [|discriminate].
  intros H. injection H as <- <-.
  apply link_names_spec in E. destruct E as (Hr & He & Hl).
  split; [reflexivity|]. split; [|split; [|split; [|split]]].
  - exists row. rewrite Hr, ensure_names_restaurants. repeat split.
  - intros c. destruct (Hl c) as (extra & Hx & Hin). exists extra.
    rewrite ensure_names_links in Hx. split; [exact Hx|].
    intros l. rewrite Hin. rewrite He.
    split; intros (n & i & Hw & Hi & ->); exists n, i; repeat split; trivial.
    + apply In_work in Hw. now destruct c.
    + apply In_work. now destruct c.
  - intros c n Hn. rewrite He. apply ensure_names_present.
    apply In_work. now destruct c.
  - intros c. rewrite He. apply (ensure_names_grow work c db1).
  - intros c Hnd. rewrite He. now apply ensure_names_ids_nodup.
Qed.

Lemma post_valid_name u now b db name :
  b_name b = Some name -> ~ blank name ->
  Production.post_restaurants u now b db
  = Production.handleRestaurantRelationships u
      (next_rowid (map r_id (restaurants db)))
      (names_of Cuisines b) (names_of Types b) (names_of Neighborhoods b)
      (names_of Tags b) db
      (with_restaurants
         (restaurants db
          ++ [mkRestaurant (next_rowid (map r_id (restaurants db))) (trim name)
                (b_neighborhood b) (b_borough b)
                (Some (default (lit "Unvisited") (b_status b)))
                (Production.bit (default false (b_liked b))) (b_happy_hour b)
                (b_happy_hour_start_time b) (b_happy_hour_end_time b)
                (match b_happy_hour_data b with
                 | Some d => if truthy d then Some d else None
                 | None => None
                 end)
                (Production.bit (default false (b_has_happy_hour b)))
                (b_notes b) (b_what_to_order b) (b_website_link b)
                (b_latitude b) (b_longitude b) (Some now) (Some now)])
         db).
Proof.
  intros Hn Hb. unfold Production.post_restaurants. rewrite Hn.
  assert (Ht : truthy (trim name) = true).
  { apply truthy_not_nil. intros E. apply Hb. now apply trim_nil_iff. }
  assert (Hn' : truthy name = true).
  { destruct name; [|reflexivity]. exfalso. apply Hb. reflexivity. }
  rewrite Ht, Hn'. reflexivity.
Qed.

(** *** PUT: what an update does to the join tables *)














(** ** The listing *)

Lemma In_insert_by_name (r x : restaurant) (l : list restaurant) :
  In x (insert_by_name r l) <-> x = r \/ In x l.
Proof.
  induction l as [|a l IH]; simpl; [intuition|].
  destruct (str_leb (r_name r) (r_name a)); simpl; [intuition|].
  rewrite IH. intuition.
Qed.

Lemma In_order_by_name (x : restaurant) (l : list restaurant) :
  In x (order_by_name l) <-> In x l.
Proof.
  induction l as [|a l IH]; simpl; [tauto|].
  rewrite In_insert_by_name, IH. intuition.
Qed.

Lemma length_insert_by_name (r : restaurant) (l : list restaurant) :
  List.length (insert_by_name r l) = S (List.length l).
Proof.
  induction l as [|a l IH]; simpl; [reflexivity|].
  destruct (str_leb (r_name r) (r_name a)); simpl; [reflexivity|now rewrite IH].
Qed.

Lemma length_order_by_name (l : list restaurant) :
  List.length (order_by_name l) = List.length l.
Proof.
  induction l as [|a l IH]; simpl; [reflexivity|].
  now rewrite length_insert_by_name, IH.
Qed.

Lemma length_filter_le {A} (p : A -> bool) (l : list A) :
  (List.length (filter p l) <= List.length l)%nat.
Proof.
  induction l as [|a l IH]; simpl; [lia|]. destruct (p a); simpl; lia.
Qed.

(** A page that covers the table returns what the query selected. *)
Lemma limit_offset_covers (limit offset : Z) (l : list restaurant) :
  (offset <= 0)%Z ->
  (limit < 0)%Z \/ (Z.of_nat (List.length l) <= limit)%Z ->
  limit_offset limit offset l = l.
Proof.
  intros Ho Hl. unfold limit_offset.
  replace (Z.to_nat offset) with 0%nat by lia. simpl skipn.
  destruct (limit <? 0)%Z eqn:E; [reflexivity|].
  apply Z.ltb_ge in E. apply firstn_all2. lia.
Qed.


Lemma eval_operators_and (hs : list having_condition) acc db r :
  eval_operators acc (map AND hs) db r
  = acc && forallb (fun h => eval_having h db r) hs.
Proof.
  revert acc. induction hs as [|h hs IH]; intros acc; simpl.
  - now rewrite andb_true_r.
  - now rewrite IH, andb_assoc.
Qed.


Lemma no_having_in_and (hs : list having_condition) (tl : list fragment) :
  existsb is_having (map AND hs ++ tl) = existsb is_having tl.
Proof. induction hs as [|h hs IH]; simpl; trivial. Qed.

(** The conditions of one HAVING clause are taken together. *)
Lemma group_filter_having (conds : list having_condition) :
  exists keep,
    group_filter (having_clause conds) = Ok keep
    /\ forall db r,
         keep db r = forallb (fun h => eval_having h db r) conds.
Proof.
  destruct conds as [|h hs]; simpl.
  - eexists. split; [reflexivity|]. reflexivity.
  - rewrite <- (app_nil_r (map AND hs)), no_having_in_and. simpl.
    eexists. split; [reflexivity|]. intros db r.
    rewrite app_nil_r. apply eval_operators_and.
Qed.


Lemma category_fragment_given k c (p : option str) :
  given p = true -> names_a_value p = true ->
  category_fragment k c p = [k (any_like c (patterns p))].
Proof.
  unfold names_a_value, patterns, category_fragment. intros Hg. rewrite Hg.
  destruct p as [raw|]; [|discriminate]. simpl.
  destruct (values raw); [discriminate|reflexivity].
Qed.


Lemma production_where (q : query) (r : restaurant) :
  forallb (fun w => eval_where w r) (sel_where (Production.build_query q))
  = passes_equality q r.
Proof.
  unfold Production.build_query, passes_equality, equals. cbv zeta.
  unfold sel_where.
  destruct (q_boroughs q) as [b|], (q_status q) as [s|], (q_liked q) as [l|];
    try destruct (truthy b); try destruct (truthy s); simpl;
    rewrite ?andb_true_r, ?andb_assoc; reflexivity.
Qed.


Lemma like_column_appears (v : str) (col : option str) :
  appears_in_column v col -> like_column (contains_pattern v) col = true.
Proof.
  destruct col as [t|]; simpl; [apply like_contains|contradiction].
Qed.

(** A term that occurs in one of the searched texts satisfies the search
    condition. *)
Lemma text_appears_matches (s : str) (db : database) (r : restaurant) :
  text_appears s db r -> text_matches s db r = true.
Proof.
  unfold text_appears, text_matches, eval_having.
  intros [H|[H|[H|[H|(c & n & Hn & H)]]]].
  - rewrite (like_contains _ _ H). reflexivity.
  - rewrite (like_column_appears _ _ H). now rewrite !orb_true_r.
  - rewrite (like_column_appears _ _ H). now rewrite !orb_true_r.
  - rewrite (like_column_appears _ _ H). now rewrite !orb_true_r.
  - pose proof (like_group_concat s n _ Hn H) as E.
    unfold aggregate. destruct c; rewrite E; now rewrite !orb_true_r.
Qed.



(** *** The development server *)

Lemma development_tail (q : query) :
  names_a_value (q_cuisines q) = true -> names_a_value (q_types q) = true ->
  sel_tail (Development.build_query q) = having_clause (development_conditions q).
Proof.
  intros Hc Ht.
  unfold Development.build_query, development_conditions, one_of. cbv zeta.
  unfold sel_tail.
  destruct (given (q_cuisines q)) eqn:Gc; destruct (given (q_types q)) eqn:Gt;
    cbn [andb orb negb];
    rewrite ?(category_fragment_given _ _ _ Gc Hc),
      ?(category_fragment_given _ _ _ Gt Ht);
    reflexivity.
Qed.

(** In the development server the search term is one more condition of the
    WHERE clause, on three columns, and the set filters are cuisines and
    types. *)
Lemma development_rows (q : query) (db : database) :
  names_a_value (q_cuisines q) = true -> names_a_value (q_types q) = true ->
  page_covers (default Development.default_limit (q_limit q))
    (default 0%Z (q_offset q)) db ->
  exists rows,
    Development.get_restaurants q db = Development.RestaurantList rows
    /\ forall r,
         In (Development.shape db r) rows
         <-> In r (restaurants db)
             /\ forallb (fun w => eval_where w r)
                  (sel_where (Development.build_query q)) = true
             /\ forallb (fun h => eval_having h db r) (development_conditions q)
                = true.
Proof.
  intros Hc Ht (Ho & Hl). unfold Development.get_restaurants, run_select.
  rewrite (development_tail q Hc Ht).
  destruct (group_filter_having (development_conditions q)) as (keep & -> & Hk).
  simpl bind. cbv iota. eexists. split; [reflexivity|]. intros r.
  change (sel_limit (Development.build_query q))
    with (default Development.default_limit (q_limit q)).
  change (sel_offset (Development.build_query q)) with (default 0%Z (q_offset q)).
  rewrite limit_offset_covers; trivial.
  - rewrite in_map_iff. split.
    + intros (x & E & Hx). assert (x = r) by (now injection E). subst x.
      apply -> In_order_by_name in Hx. unfold selected in Hx.
      apply filter_In in Hx. destruct Hx as (Hin & Hx).
      apply andb_true_iff in Hx. rewrite Hk in Hx. tauto.
    + intros (Hin & He & Hkeep). exists r. split; [reflexivity|].
      apply <- In_order_by_name. unfold selected. apply filter_In.
      split; [exact Hin|]. rewrite He, Hk, Hkeep. reflexivity.
  - destruct Hl as [Hl|Hl]; [now left|right].
    rewrite length_order_by_name. unfold selected.
    pose proof (length_filter_le
      (fun r => forallb (fun w => eval_where w r)
                  (sel_where (Development.build_query q)) && keep db r)
      (restaurants db)). lia.
Qed.

(** ** C1: an update that empties the tags *)




(** ** C2: set filters of the listing *)




(** ** C3: the search term of the listing *)




(** The restaurant whose notes mention the term is listed although it has
    no Thai cuisine. *)
Lemma search_beats_set_filter :
  exists o,
    Production.get_restaurants negroni_thai bar_place = RestaurantList [o]
    /\ r_name (j_row o) = lit "Bar Pisellino"
    /\ j_cuisines o = [].
Proof. eexists. split; [reflexivity|]. split; reflexivity. Qed.

(** ** C4: an update of an id that is not stored *)

(** The path of the update that does look for the restaurant: with a scalar
    field in the body, an id that is not stored gets 404 and nothing
    changes. *)
Lemma put_unknown_id_with_field (unique_links : bool) (now : str)
  (restaurantId : N) (b : body) (db : database) :
  ~ In restaurantId (map r_id (restaurants db)) ->
  Production.scalar_updates b <> [] ->
  Production.put_restaurant unique_links now restaurantId b db
  = (ErrorReply 404 "Restaurant not found", db).
Proof.
  intros Hn Hu. unfold Production.put_restaurant.
  destruct (Production.scalar_updates b) as [|a upd] eqn:E; [congruence|].
  cbn [List.length Nat.eqb andb Nat.ltb Nat.leb].
  unfold Production.update_restaurants.
  replace (filter (fun r => r_id r =? restaurantId) (restaurants db))
    with (@nil restaurant); [reflexivity|].
  symmetry. induction (restaurants db) as [|r rs IH]; [reflexivity|].
  simpl in *. destruct (r_id r =? restaurantId) eqn:Er.
  - apply N.eqb_eq in Er. tauto.
  - apply IH. tauto.
Qed.

(** C4 (a defect of the code): a PUT that carries only an association list
    never looks for the restaurant.  For an id that is not stored it
    answers 200 and commits a lookup row and a join row of that id, where
    C4 has 404 and an unchanged database. *)
Theorem put_unknown_id_with_list (unique_links : bool) (now : str) :
  ~ In 7 (map r_id (restaurants one_place))
  /\ exists db',
       Production.put_restaurant unique_links now 7
         (with_cuisines ["Thai"%string] empty_body) one_place
       = (Message "Restaurant updated successfully", db')
       /\ restaurants db' = restaurants one_place
       /\ cuisines db' = cuisines one_place ++ [mkLookup 2 (lit "Thai")]
       /\ restaurant_cuisines db'
          = restaurant_cuisines one_place ++ [mkLink 7 2].
Proof.
  split; [simpl; intros [H|[]]; discriminate H|].
  destruct unique_links; eexists; (split; [reflexivity|]); repeat split.
Qed.

(** ** C5 and C6: blank and repeated names in an association list *)

(** The neighborhood migration, which runs the same two statements per
    name, drops blank names and links with INSERT OR IGNORE: a legacy
    column [Soho, ,Soho] gives one lookup row and one join row. *)
Lemma migration_skips_blanks_and_duplicates :
  Production.migration_work
    [mkRestaurant 1 (lit "Cafe") (Some (lit "Soho, ,Soho")) None None 0 None
       None None None 0 None None None None None None None]
  = [(1, lit "Soho"); (1, lit "Soho")]
  /\ neighborhoods
       (Production.migrate_links [(1, lit "Soho"); (1, lit "Soho")]
          empty_database)
     = [mkLookup 1 (lit "Soho")]
  /\ restaurant_neighborhoods
       (Production.migrate_links [(1, lit "Soho"); (1, lit "Soho")]
          empty_database)
     = [mkLink 1 1].
Proof. repeat split. Qed.

(** C5 (a defect of the code): a name that is blank after trimming is not
    passed over.  A create with the cuisines ["  "] and ["Thai"] writes a
    lookup row with the empty name and a join row to it, next to those of
    Thai; an update with the types [" "] does the same in its tables. *)
Theorem post_blank_association_name (unique_links : bool) (now : str) :
  (exists db',
     Production.post_restaurants unique_links now
       (with_cuisines ["  "%string; "Thai"%string] (named "Cafe")) empty_database
     = (Created 1, db')
     /\ cuisines db' = [mkLookup 1 []; mkLookup 2 (lit "Thai")]
     /\ restaurant_cuisines db' = [mkLink 1 1; mkLink 1 2])
  /\ (exists db',
        Production.put_restaurant unique_links now 1
          (mkBody None None None None None None None None None None None None
             None None None (Some [lit "Italian"]) (Some [lit " "]) None
             (Some [lit "brunch"]))
          one_place
        = (Message "Restaurant updated successfully", db')
        /\ types db' = [mkLookup 1 []]
        /\ restaurant_types db' = [mkLink 1 1]).
Proof.
  split; destruct unique_links; eexists; (split; [reflexivity|]);
    split; reflexivity.
Qed.

(** C6 (a defect of the code): the linking INSERT is a plain INSERT.  A
    create with the cuisines ["Italian"; "Italian"] writes one lookup row
    and then either two equal join rows, when the join table allows
    duplicates, or fails with 500 and is rolled back, when it does not; an
    update with that list behaves the same way. *)
Theorem post_duplicate_association_name (now : str) :
  (exists db',
     Production.post_restaurants false now
       (with_cuisines ["Italian"%string; "Italian"%string] (named "Osteria"))
       empty_database
     = (Created 1, db')
     /\ cuisines db' = [mkLookup 1 (lit "Italian")]
     /\ restaurant_cuisines db' = [mkLink 1 1; mkLink 1 1])
  /\ Production.post_restaurants true now
       (with_cuisines ["Italian"%string; "Italian"%string] (named "Osteria"))
       empty_database
     = (ErrorReply 500 "UNIQUE constraint failed", empty_database)
  /\ (exists db',
        Production.put_restaurant false now 1
          (with_cuisines ["Italian"%string; "Italian"%string] empty_body)
          one_place
        = (Message "Restaurant updated successfully", db')
        /\ restaurant_cuisines db' = [mkLink 1 1; mkLink 1 1])
  /\ Production.put_restaurant true now 1
       (with_cuisines ["Italian"%string; "Italian"%string] empty_body) one_place
     = (ErrorReply 500 "UNIQUE constraint failed", one_place).
Proof.
  split; [|split; [reflexivity|split; [|reflexivity]]].
  - eexists. split; [reflexivity|]. split; reflexivity.
  - eexists. split; reflexivity.
Qed.

(** ** C7: a create without a name *)

(** C7: a POST whose name is missing, empty or made of white space only is
    answered with 400 by both servers, and the database stays as it was: no
    restaurant, lookup or association row is written. *)
Theorem post_blank_name_rejected (unique_links : bool) (now : str) (b : body)
  (db : database) :
  b_name b = None \/ (exists s, b_name b = Some s /\ blank s) ->
  Production.post_restaurants unique_links now b db
  = (ErrorReply 400 "Restaurant name is required", db)
  /\ Development.post_restaurants now b db
     = (Development.ErrorReply 400 "Restaurant name is required", db).
Proof.
  unfold Production.post_restaurants, Development.post_restaurants.
  intros [-> | (s & -> & Hs)]; [split; reflexivity|].
  apply trim_nil_iff in Hs. rewrite Hs. simpl.
  rewrite orb_true_r. split; reflexivity.
Qed.

Lemma post_blank_name_rejected_witness :
  Production.post_restaurants true sample_now (named "   ") empty_database
  = (ErrorReply 400 "Restaurant name is required", empty_database)
  /\ Development.post_restaurants sample_now (named "   ") empty_database
     = (Development.ErrorReply 400 "Restaurant name is required", empty_database).
Proof.
  apply (post_blank_name_rejected true sample_now (named "   ") empty_database).
  right. exists (lit "   "). split; reflexivity.
Defined.

(** ** C8: a delete of an id that is not stored *)

(** C8: DELETE of an id that no restaurant has is answered with 404, and the
    ROLLBACK leaves every table, the lookup tables and the four join tables
    among them, as it was. *)
Theorem delete_unknown_id (restaurantId : N) (db : database) :
  ~ In restaurantId (map r_id (restaurants db)) ->
  Production.delete_restaurant restaurantId db
  = (ErrorReply 404 "Restaurant not found", db).
Proof.
  intros H. unfold Production.delete_restaurant.
  replace (filter (fun r => r_id r =? restaurantId)
             (restaurants
                (delete_links Tags restaurantId
                   (delete_links Types restaurantId
                      (delete_links Cuisines restaurantId db)))))
    with (@nil restaurant); [reflexivity|].
  symmetry. simpl.
  induction (restaurants db) as [|r rs IH]; [reflexivity|].
  simpl in *. destruct (r_id r =? restaurantId) eqn:E.
  - apply N.eqb_eq in E. tauto.
  - apply IH. tauto.
Qed.

Lemma delete_unknown_id_witness :
  Production.delete_restaurant 7 one_place
  = (ErrorReply 404 "Restaurant not found", one_place).
Proof.
  apply (delete_unknown_id 7 one_place).
  simpl. intros [H|[]]. discriminate H.
Defined.

(** ** C9: create, then fetch *)


Lemma NoDup_fst_functional {A B} (l : list (A * B)) i a b :
  NoDup (map fst l) -> In (i, a) l -> In (i, b) l -> a = b.
Proof.
  induction l as [|[j x] l IH]; simpl; [contradiction|]. intros H.
  apply NoDup_cons_iff in H. destruct H as (Hj & H).
  intros [E1|H1] [E2|H2].
  - congruence.
  - injection E1 as -> ->. exfalso. apply Hj.
    apply in_map_iff. now exists (i, b).
  - injection E2 as -> ->. exfalso. apply Hj.
    apply in_map_iff. now exists (i, a).
  - now apply IH.
Qed.



(** ** C10: names that survive the round trip *)

(** Where the join tables allow duplicates, a create with a valid name
    cannot fail. *)
Lemma post_created_when_duplicates_allowed (now : str) (b : body) (db : database)
  (name : str) :
  b_name b = Some name -> ~ blank name ->
  exists db',
    Production.post_restaurants false now b db
    = (Created (next_rowid (map r_id (restaurants db))), db').
Proof.
  intros Hn Hb. rewrite (post_valid_name _ _ _ _ name Hn Hb).
  unfold Production.handleRestaurantRelationships.
  match goal with
  | |- context [link_names false ?i ?w ?d] =>
      destruct (link_names_duplicates i w d) as (db' & ->)
  end.
  now exists db'.
Qed.

(** C10: when a restaurant is created with a name in one of its association
    lists and then fetched by id, the trimmed name is an element of the list
    of that category, provided it is not blank and has no comma (for a tag,
    no colon either); a name with a comma is never an element of the list,
    since the aggregate is split at commas. *)
Theorem lookup_name_round_trip (unique_links : bool) (now : str) (b : body)
  (db : database) (c : category) (n : str) (N : N) (db' : database) :
  In n (names_of c b) ->
  Production.post_restaurants unique_links now b db = (Created N, db') ->
  exists o,
    Production.get_restaurant N db' = RestaurantObject o
    /\ (trim n <> [] -> ~ In comma (trim n) ->
        (c = Tags -> ~ In colon (trim n)) ->
        In (trim n) (json_names c o))
    /\ (In comma (trim n) -> ~ In (trim n) (json_names c o)).
Proof.
  intros Hn Hp. apply created_spec in Hp.
  destruct Hp as (_ & (row & Hrs & Hid & _) & Hl & He & _).
  destruct (find_by_id N (restaurants db')) as (row' & Hf & Hid').
  { rewrite Hrs, map_app, in_app_iff. right. simpl. auto. }
  exists (Production.shape db' row').
  unfold Production.get_restaurant. rewrite Hf. split; [reflexivity|].
  destruct (He c n Hn) as (i & Hi).
  assert (Hlink : In (mkLink N i) (links c db')).
  { destruct (Hl c) as (extra & -> & Hx). apply in_or_app. right.
    apply Hx. now exists n, i. }
  unfold Production.shape. rewrite Hid'. split.
  - intros Hne Hc Hk.
    destruct c; simpl json_names;
      try (apply split_names_in; trivial; now apply (linked_names_in _ _ _ i)).
    simpl in Hi. apply in_map_iff in Hi. destruct Hi as (t & E & Ht).
    injection E as <- E.
    rewrite <- E. apply (tag_names_in _ _ (tg_color t)).
    + now apply linked_tags_in.
    + now rewrite E.
    + rewrite E. now apply Hk.
  - intros Hc Hin. destruct c; simpl json_names in Hin.
    + now apply split_names_no_comma in Hin.
    + now apply split_names_no_comma in Hin.
    + now apply split_names_no_comma in Hin.
    + now apply tag_names_no_comma in Hin.
Qed.

Lemma lookup_name_round_trip_witness :
  exists o,
    Production.get_restaurant 1 one_place = RestaurantObject o
    /\ In (lit "brunch") (json_names Tags o).
Proof.
  destruct (lookup_name_round_trip false sample_now osteria empty_database Tags
              (lit "brunch") 1 one_place) as (o & Hget & Hin & _).
  - simpl. now left.
  - reflexivity.
  - exists o. split; [exact Hget|]. apply Hin.
    + discriminate.
    + simpl. intuition discriminate.
    + intros _. simpl. intuition discriminate.
Defined.

(** * Further properties of the handlers *)

(** ** Transactions *)


(** ** DELETE of a stored restaurant *)

Lemma entries_with_restaurants c rs db :
  entries c (with_restaurants rs db) = entries c db.
Proof. now destruct c. Qed.

Lemma links_with_restaurants c rs db :
  links c (with_restaurants rs db) = links c db.
Proof. now destruct c. Qed.

(** X2: The delete removes the row and the cuisine, type and tag rows of the
    restaurant; its rows in [restaurant_neighborhoods] are not among the
    statements and stay, as do all lookup rows. *)
Theorem delete_stored_restaurant (restaurantId : N) (db : database) :
  In restaurantId (map r_id (restaurants db)) ->
  exists db',
    Production.delete_restaurant restaurantId db
    = (Message "Restaurant deleted successfully", db')
    /\ restaurants db'
       = filter (fun r => negb (r_id r =? restaurantId)) (restaurants db)
    /\ restaurant_cuisines db' = others restaurantId (restaurant_cuisines db)
    /\ restaurant_types db' = others restaurantId (restaurant_types db)
    /\ restaurant_tags db' = others restaurantId (restaurant_tags db)
    /\ restaurant_neighborhoods db' = restaurant_neighborhoods db
    /\ (forall c, entries c db' = entries c db).
Proof.
  intros Hin. unfold Production.delete_restaurant.
  replace (Nat.eqb _ 0) with false.
  - eexists. split; [reflexivity|]. repeat split.
  - symmetry. apply Nat.eqb_neq. intros E. apply length_zero_iff_nil in E.
    apply in_map_iff in Hin. destruct Hin as (r & Hr & Hin).
    assert (Hf : In r (filter (fun r => r_id r =? restaurantId) (restaurants db))).
    { apply filter_In. split; [exact Hin|]. rewrite Hr. apply N.eqb_refl. }
    simpl in E. now rewrite E in Hf.
Qed.

Lemma delete_stored_restaurant_witness :
  exists db',
    Production.delete_restaurant 1 one_place
    = (Message "Restaurant deleted successfully", db')
    /\ restaurants db' = filter (fun r => negb (r_id r =? 1)) (restaurants one_place)
    /\ restaurant_cuisines db' = others 1 (restaurant_cuisines one_place)
    /\ restaurant_types db' = others 1 (restaurant_types one_place)
    /\ restaurant_tags db' = others 1 (restaurant_tags one_place)
    /\ restaurant_neighborhoods db' = restaurant_neighborhoods one_place
    /\ (forall c, entries c db' = entries c one_place).
Proof.
  apply (delete_stored_restaurant 1 one_place). simpl. now left.
Defined.

(** ** GET by id and the listing *)

Lemma find_unique (rs : list restaurant) (r : restaurant) :
  NoDup (map r_id rs) -> In r rs ->
  find (fun x => r_id x =? r_id r) rs = Some r.
Proof.
  induction rs as [|a rs IH]; simpl; [contradiction|]. intros Hnd Hin.
  apply NoDup_cons_iff in Hnd. destruct Hnd as (Ha & Hnd).
  destruct Hin as [->|Hin]; [now rewrite N.eqb_refl|].
  destruct (r_id a =? r_id r) eqn:E; [|now apply IH].
  apply N.eqb_eq in E. exfalso. apply Ha. rewrite E. now apply in_map.
Qed.

(** A page is a block of consecutive rows. *)
Lemma limit_offset_block (limit offset : Z) (l : list restaurant) :
  exists before after, l = before ++ limit_offset limit offset l ++ after.
Proof.
  unfold limit_offset. exists (firstn (Z.to_nat offset) l).
  destruct (limit <? 0)%Z.
  - exists []. now rewrite app_nil_r, firstn_skipn.
  - exists (skipn (Z.to_nat limit) (skipn (Z.to_nat offset) l)).
    now rewrite !firstn_skipn.
Qed.

Lemma In_limit_offset (limit offset : Z) (l : list restaurant) (x : restaurant) :
  In x (limit_offset limit offset l) -> In x l.
Proof.
  destruct (limit_offset_block limit offset l) as (before & after & E).
  intros H. rewrite E. apply in_or_app. right. apply in_or_app. now left.
Qed.

(** What the listing returns is made of stored restaurants that pass the
    equality filters. *)
Lemma listed_is_stored (q : query) (db : database) (rows : list restaurant_json)
  (o : restaurant_json) :
  Production.get_restaurants q db = RestaurantList rows -> In o rows ->
  exists r, In r (restaurants db) /\ passes_equality q r = true
            /\ o = Production.shape db r.
Proof.
  unfold Production.get_restaurants, run_select.
  destruct (group_filter _) as [keep|]; [|discriminate]. simpl.
  intros H Ho. injection H as <-. apply in_map_iff in Ho.
  destruct Ho as (r & <- & Hr). apply In_limit_offset in Hr.
  apply -> In_order_by_name in Hr. unfold selected in Hr.
  apply filter_In in Hr. destruct Hr as (Hin & Hk).
  apply andb_true_iff in Hk. rewrite production_where in Hk.
  exists r. tauto.
Qed.

(** X3: GET by id answers 404 exactly for the ids that are not stored, and where
    ids are unique every object of a listing is the object that GET returns
    for its id. *)
Theorem fetch_agrees_with_listing (db : database) :
  NoDup (map r_id (restaurants db)) ->
  (forall restaurantId,
     status_code (Production.get_restaurant restaurantId db) = 404
     <-> ~ In restaurantId (map r_id (restaurants db)))
  /\ (forall q rows o,
        Production.get_restaurants q db = RestaurantList rows -> In o rows ->
        Production.get_restaurant (r_id (j_row o)) db = RestaurantObject o).
Proof.
  intros Hnd. split.
  - intros restaurantId. unfold Production.get_restaurant.
    destruct (find _ _) as [row|] eqn:E; simpl.
    + split; [discriminate|]. intros Hn. exfalso. apply Hn.
      apply find_some in E. destruct E as (Hin & E). apply N.eqb_eq in E.
      rewrite <- E. now apply in_map.
    + split; [|reflexivity]. intros _ Hin.
      destruct (find_by_id _ _ Hin) as (row & Hf & _). congruence.
  - intros q rows o Hq Ho.
    destruct (listed_is_stored q db rows o Hq Ho) as (r & Hin & _ & ->).
    unfold Production.get_restaurant. simpl j_row.
    now rewrite (find_unique _ _ Hnd Hin).
Qed.

Lemma fetch_agrees_with_listing_witness :
  (forall restaurantId,
     status_code (Production.get_restaurant restaurantId one_place) = 404
     <-> ~ In restaurantId (map r_id (restaurants one_place)))
  /\ (forall q rows o,
        Production.get_restaurants q one_place = RestaurantList rows ->
        In o rows ->
        Production.get_restaurant (r_id (j_row o)) one_place = RestaurantObject o).
Proof.
  apply (fetch_agrees_with_listing one_place).
  repeat constructor. simpl. tauto.
Defined.

(** ** What a create and an update write *)

Lemma ioi_added c c' nm db :
  exists added,
    entries c' (insert_or_ignore c nm db) = entries c' db ++ added
    /\ forall e, In e added -> c' = c /\ snd e = nm.
Proof.
  unfold insert_or_ignore. destruct (existsb _ _).
  - exists []. rewrite app_nil_r. split; [reflexivity|contradiction].
  - destruct (category_eq_or_neq c c') as [<-|Hn].
    + rewrite entries_append_entry_same. eexists. split; [reflexivity|].
      intros e [<-|[]]. now split.
    + rewrite entries_append_entry_other by exact Hn.
      exists []. rewrite app_nil_r. split; [reflexivity|contradiction].
Qed.

(** The lookup rows a list of names adds carry names of the list. *)
Lemma ensure_names_added work c db :
  exists added,
    entries c (ensure_names work db) = entries c db ++ added
    /\ forall e, In e added -> exists n, In (c, n) work /\ snd e = trim n.
Proof.
  revert db. induction work as [|[cw nw] work IH]; intros db.
  - exists []. simpl. rewrite app_nil_r. split; [reflexivity|contradiction].
  - rewrite ensure_names_cons. simpl fst. simpl snd.
    destruct (IH (insert_or_ignore cw (trim nw) db)) as (a2 & E2 & H2).
    destruct (ioi_added cw c (trim nw) db) as (a1 & E1 & H1).
    exists (a1 ++ a2). split; [now rewrite E2, E1, app_assoc|].
    intros e He. apply in_app_or in He. destruct He as [He|He].
    + destruct (H1 e He) as (-> & Hs). exists nw. split; [now left|exact Hs].
    + destruct (H2 e He) as (n & Hn & Hs). exists n. split; [now right|exact Hs].
Qed.

Lemma no_elements_nil {A} (l : list A) : (forall x, ~ In x l) -> l = [].
Proof. destruct l as [|a l]; [reflexivity|]. intros H. now destruct (H a); left. Qed.

Lemma ensure_names_entries_other work c db :
  (forall n, ~ In (c, n) work) ->
  entries c (ensure_names work db) = entries c db.
Proof.
  intros H. destruct (ensure_names_added work c db) as (added & -> & Ha).
  rewrite (no_elements_nil added); [apply app_nil_r|].
  intros e He. destruct (Ha e He) as (n & Hn & _). now apply (H n).
Qed.

Lemma ioi_names_nodup c c' nm db :
  NoDup (map snd (entries c' db)) ->
  NoDup (map snd (entries c' (insert_or_ignore c nm db))).
Proof.
  intros H. unfold insert_or_ignore. destruct (existsb _ _) eqn:E; [exact H|].
  destruct (category_eq_or_neq c c') as [<-|Hn].
  - rewrite entries_append_entry_same, map_app. simpl.
    apply NoDup_app; [exact H|repeat constructor; simpl; tauto|].
    intros a Ha [<-|[]]. apply in_map_iff in Ha. destruct Ha as (e & He & Hin).
    assert (Ht : existsb (fun e => str_eqb (snd e) nm) (entries c db) = true).
    { apply existsb_exists. exists e. split; [exact Hin|]. now apply str_eqb_eq. }
    congruence.
  - now rewrite entries_append_entry_other.
Qed.

Lemma keyed_insert_or_ignore c nm db : keyed db -> keyed (insert_or_ignore c nm db).
Proof.
  intros H c'. destruct (H c') as (H1 & H2).
  split; [now apply ioi_ids_nodup|now apply ioi_names_nodup].
Qed.

Lemma keyed_ensure_names work db : keyed db -> keyed (ensure_names work db).
Proof.
  revert db. induction work as [|w work IH]; intros db H; [exact H|].
  rewrite ensure_names_cons. apply IH. now apply keyed_insert_or_ignore.
Qed.

Lemma keyed_same_entries db db' :
  (forall c, entries c db' = entries c db) -> keyed db -> keyed db'.
Proof. intros E H c. rewrite E. apply H. Qed.

Lemma In_pairs (c c' : category) (n : str) (names : list str) :
  In (c', n) (map (pair c) names) <-> c' = c /\ In n names.
Proof.
  rewrite in_map_iff. split.
  - intros (x & E & H). injection E as <- <-. now split.
  - intros (-> & H). now exists n.
Qed.

(** One category of an update: the join rows of the restaurant become the
    rows of the supplied names, nothing else changes but the lookup rows
    added for them. *)
Lemma update_category_exact u c rid names db db' :
  Production.update_category u c rid names db = Ok db' ->
  restaurants db' = restaurants db
  /\ (forall c', c' <> c ->
        links c' db' = links c' db /\ entries c' db' = entries c' db)
  /\ (exists added,
        entries c db' = entries c db ++ added
        /\ forall e, In e added -> exists n, In n names /\ snd e = trim n)
  /\ (forall n, In n names -> exists i, In (i, trim n) (entries c db'))
  /\ (forall i, In (mkLink rid i) (links c db')
                <-> exists n, In n names /\ In (i, trim n) (entries c db'))
  /\ (keyed db -> keyed db').
Proof.
  unfold Production.update_category. simpl Nat.leb. cbv iota.
  destruct names as [|n0 names].
  - simpl. intros H. injection H as <-. unfold delete_links.
    split; [apply restaurants_with_links|].
    split; [intros c' Hc; split;
            [now apply links_with_links_other|apply entries_with_links]|].
    split; [exists []; rewrite app_nil_r, entries_with_links;
            split; [reflexivity|contradiction]|].
    split; [contradiction|]. split.
    + intros i. rewrite links_with_links_same. split.
      * intros H. apply filter_In in H. destruct H as (_ & H). simpl in H.
        now rewrite N.eqb_refl in H.
      * intros (n & [] & _).
    + apply keyed_same_entries. intros c'. apply entries_with_links.
  - simpl Nat.ltb. cbv iota. set (names' := n0 :: names).
    unfold Production.relink. set (work := map (pair c) names').
    set (db0 := delete_links c rid db). intros H.
    apply link_names_spec in H. destruct H as (Hr & He & Hl).
    assert (He0 : forall c', entries c' db0 = entries c' db)
      by (intros c'; apply entries_with_links).
    split; [rewrite Hr, ensure_names_restaurants; apply restaurants_with_links|].
    split; [|split; [|split; [|split]]].
    + intros c' Hc. split.
      * destruct (Hl c') as (extra & -> & Hx).
        rewrite (no_elements_nil extra), app_nil_r, ensure_names_links.
        -- unfold db0, delete_links. apply links_with_links_other. congruence.
        -- intros l Hin. apply Hx in Hin. destruct Hin as (n & i & Hw & _).
           apply In_pairs in Hw. tauto.
      * rewrite He, ensure_names_entries_other, He0; [reflexivity|].
        intros n Hw. apply In_pairs in Hw. tauto.
    + destruct (ensure_names_added work c db0) as (added & E & Ha).
      exists added. rewrite He, E, He0. split; [reflexivity|].
      intros e Hin. destruct (Ha e Hin) as (n & Hw & Hs).
      apply In_pairs in Hw. exists n. tauto.
    + intros n Hn. rewrite He. apply ensure_names_present.
      apply In_pairs. tauto.
    + intros i. destruct (Hl c) as (extra & -> & Hx).
      rewrite in_app_iff, ensure_names_links, Hx, He. split.
      * intros [H|(n & j & Hw & Hj & E)].
        -- unfold db0, delete_links in H. rewrite links_with_links_same in H.
           apply filter_In in H. destruct H as (_ & H). simpl in H.
           now rewrite N.eqb_refl in H.
        -- injection E as ->. apply In_pairs in Hw. exists n. tauto.
      * intros (n & Hn & Hi). right. exists n, i. repeat split; trivial.
        apply In_pairs. tauto.
    + intros Hk. apply (keyed_same_entries (ensure_names work db0)); [exact He|].
      apply keyed_ensure_names. now apply (keyed_same_entries db).
Qed.

(** The four categories of an update, one after the other. *)
Lemma update_all_exact u rid cs ts ns gs db db' :
  Production.updateCuisinesTypesNeighborhoodsAndTags u rid cs ts ns gs db = Ok db' ->
  restaurants db' = restaurants db
  /\ (keyed db -> keyed db')
  /\ forall c,
       let names :=
         match c return list str with
         | Cuisines => cs | Types => ts | Neighborhoods => ns | Tags => gs
         end in
       (exists added,
          entries c db' = entries c db ++ added
          /\ forall e, In e added -> exists n, In n names /\ snd e = trim n)
       /\ (forall n, In n names -> exists i, In (i, trim n) (entries c db'))
       /\ (forall i, In (mkLink rid i) (links c db')
                     <-> exists n, In n names /\ In (i, trim n) (entries c db')).
Proof.
  unfold Production.updateCuisinesTypesNeighborhoodsAndTags,
    Production.updateTypes, Production.updateNeighborhoods, Production.updateTags.
  destruct (Production.update_category u Cuisines rid cs db) as [d1|] eqn:E1;
    [|discriminate]. simpl.
  destruct (Production.update_category u Types rid ts d1) as [d2|] eqn:E2;
    [|discriminate]. simpl.
  destruct (Production.update_category u Neighborhoods rid ns d2) as [d3|] eqn:E3;
    [|discriminate]. simpl.
  intros E4.
  apply update_category_exact in E1, E2, E3, E4.
  destruct E1 as (R1 & O1 & A1 & P1 & L1 & K1), E2 as (R2 & O2 & A2 & P2 & L2 & K2),
    E3 as (R3 & O3 & A3 & P3 & L3 & K3), E4 as (R4 & O4 & A4 & P4 & L4 & K4).
  split; [congruence|]. split; [tauto|].
  intros c. destruct c; cbv zeta.
  - destruct (O2 Cuisines) as (l2 & e2); [discriminate|].
    destruct (O3 Cuisines) as (l3 & e3); [discriminate|].
    destruct (O4 Cuisines) as (l4 & e4); [discriminate|].
    rewrite l4, l3, l2, e4, e3, e2. tauto.
  - destruct (O1 Types) as (l1 & e1); [discriminate|].
    destruct (O3 Types) as (l3 & e3); [discriminate|].
    destruct (O4 Types) as (l4 & e4); [discriminate|].
    rewrite l4, l3, e4, e3, <- e1. tauto.
  - destruct (O1 Neighborhoods) as (l1 & e1); [discriminate|].
    destruct (O2 Neighborhoods) as (l2 & e2); [discriminate|].
    destruct (O4 Neighborhoods) as (l4 & e4); [discriminate|].
    rewrite l4, e4, <- e1, <- e2. tauto.
  - destruct (O1 Tags) as (l1 & e1); [discriminate|].
    destruct (O2 Tags) as (l2 & e2); [discriminate|].
    destruct (O3 Tags) as (l3 & e3); [discriminate|].
    rewrite <- e1, <- e2, <- e3. tauto.
Qed.

(** An update that answers 200 ran its four categories on a database with
    the lookup and join rows it was given. *)
Lemma put_succeeded u now rid b db m db' :
  Production.put_restaurant u now rid b db = (Message m, db') ->
  exists working,
    (forall c, links c working = links c db /\ entries c working = entries c db)
    /\ (Production.scalar_updates b = [] -> restaurants working = restaurants db)
    /\ (Production.scalar_updates b <> [] ->
        restaurants working
        = map (fun r =>
                 if r_id r =? rid
                 then fold_left (fun r' a => Production.assign a r')
                        (Production.scalar_updates b
                         ++ [Production.set_updated_at now]) r
                 else r)
            (restaurants db))
    /\ Production.updateCuisinesTypesNeighborhoodsAndTags u rid
         (names_of Cuisines b) (names_of Types b) (names_of Neighborhoods b)
         (names_of Tags b) working
       = Ok db'.
Proof.
  unfold Production.put_restaurant.
  destruct (_ && _ && _ && _ && _); [discriminate|].
  destruct (Production.scalar_updates b) as [|a upd] eqn:Eu.
  - cbn [List.length Nat.ltb Nat.leb].
    destruct (Production.updateCuisinesTypesNeighborhoodsAndTags _ _ _ _ _ _ _)
      as [d|] eqn:E; [|discriminate].
    intros H. injection H as _ <-. exists db.
    split; [intros c; now split|]. split; [reflexivity|].
    split; [congruence|exact E].
  - cbn [List.length Nat.ltb Nat.leb]. unfold Production.update_restaurants.
    destruct (Nat.eqb _ 0); [discriminate|].
    destruct (Production.updateCuisinesTypesNeighborhoodsAndTags _ _ _ _ _ _ _)
      as [d|] eqn:E; [|discriminate].
    intros H. injection H as _ <-.
    match type of E with
    | Production.updateCuisinesTypesNeighborhoodsAndTags _ _ _ _ _ _ ?w = _ =>
        exists w
    end.
    split; [intros c; now destruct c|].
    split; [discriminate|]. split; [reflexivity|exact E].
Qed.

(** X4: An update makes the association sets of the restaurant the supplied
    lists: after a 200, the names linked to it in a category are exactly the
    trimmed names of the list of that category in the body, an omitted list
    counting as the empty one. *)
Theorem put_replaces_association_sets (unique_links : bool) (now : str)
  (restaurantId : N) (b : body) (db db' : database) (m : string) :
  keyed db ->
  Production.put_restaurant unique_links now restaurantId b db = (Message m, db') ->
  forall c x,
    In x (linked_names c db' restaurantId)
    <-> exists n, In n (names_of c b) /\ x = trim n.
Proof.
  intros Hk Hp. apply put_succeeded in Hp.
  destruct Hp as (working & Hw & _ & _ & Hu).
  apply update_all_exact in Hu. destruct Hu as (_ & Hk' & Hc).
  assert (Hkw : keyed working).
  { intros c. destruct (Hw c) as (_ & ->). apply Hk. }
  specialize (Hk' Hkw). intros c x. specialize (Hc c).
  assert (Hnames : match c return list str with
                   | Cuisines => names_of Cuisines b
                   | Types => names_of Types b
                   | Neighborhoods => names_of Neighborhoods b
                   | Tags => names_of Tags b
                   end = names_of c b) by now destruct c.
  cbv zeta in Hc. rewrite Hnames in Hc. destruct Hc as (_ & Hp & Hl).
  split.
  - intros Hx. apply linked_names_inv in Hx. destruct Hx as (i & Hi & Hix).
    apply Hl in Hi. destruct Hi as (n & Hn & Hin). exists n. split; [exact Hn|].
    apply (NoDup_fst_functional (entries c db') i); trivial. apply Hk'.
  - intros (n & Hn & ->). destruct (Hp n Hn) as (i & Hi).
    apply (linked_names_in _ _ _ i); trivial. apply Hl. now exists n.
Qed.

Lemma put_replaces_association_sets_witness :
  In (lit "Thai")
    (linked_names Cuisines
       (snd (Production.put_restaurant true sample_now 1
               (with_cuisines ["Thai"%string] empty_body) one_place)) 1)
  <-> exists n,
        In n (names_of Cuisines (with_cuisines ["Thai"%string] empty_body))
        /\ lit "Thai" = trim n.
Proof.
  apply (put_replaces_association_sets true sample_now 1
           (with_cuisines ["Thai"%string] empty_body) one_place _
           "Restaurant updated successfully").
  - intros c. destruct c; split; repeat constructor; simpl; tauto.
  - reflexivity.
Defined.

(** X5: A create that answers 200 appends one row with a new id, the trimmed
    name and the defaults of the fields the body leaves out; it keeps every
    join row that was there, adds join rows of the new id only, and adds
    lookup rows only for names of the body. *)
Theorem create_appends_one_row (unique_links : bool) (now : str) (b : body)
  (db : database) (N : N) (db' : database) :
  Production.post_restaurants unique_links now b db = (Created N, db') ->
  exists name,
    b_name b = Some name /\ trim name <> []
    /\ ~ In N (map r_id (restaurants db))
    /\ restaurants db'
       = restaurants db
         ++ [mkRestaurant N (trim name) (b_neighborhood b) (b_borough b)
               (Some (default (lit "Unvisited") (b_status b)))
               (Production.bit (default false (b_liked b))) (b_happy_hour b)
               (b_happy_hour_start_time b) (b_happy_hour_end_time b)
               (match b_happy_hour_data b with
                | Some d => if truthy d then Some d else None
                | None => None
                end)
               (Production.bit (default false (b_has_happy_hour b)))
               (b_notes b) (b_what_to_order b) (b_website_link b)
               (b_latitude b) (b_longitude b) (Some now) (Some now)]
    /\ (forall c, exists new,
          links c db' = links c db ++ new
          /\ forall l, In l new -> restaurant_id l = N)
    /\ (forall c, exists added,
          entries c db' = entries c db ++ added
          /\ forall e, In e added ->
                       exists n, In n (names_of c b) /\ snd e = trim n).
Proof.
  unfold Production.post_restaurants.
  destruct (b_name b) as [name|]; [|discriminate].
  destruct (truthy name) eqn:Tn; [|discriminate].
  destruct (truthy (trim name)) eqn:Tt; [|discriminate]. simpl negb. cbv iota.
  unfold Production.handleRestaurantRelationships.
  set (work := map (pair Cuisines) _ ++ _).
  set (row := mkRestaurant _ _ _ _ _ _ _ _ _ _ _ _ _ _ _ _ _ _).
  set (db1 := with_restaurants _ db).
  destruct (link_names unique_links _ work (ensure_names work db1)) as [db2|] eqn:E;
    [|discriminate].
  intros H. injection H as <- <-.
  apply link_names_spec in E. destruct E as (Hr & He & Hl).
  exists name. split; [reflexivity|]. split; [now apply truthy_not_nil|].
  split; [apply next_rowid_fresh|].
  split; [now rewrite Hr, ensure_names_restaurants|]. split.
  - intros c. destruct (Hl c) as (extra & Hx & Hin). exists extra.
    rewrite ensure_names_links in Hx. unfold db1 in Hx.
    rewrite links_with_restaurants in Hx. split; [exact Hx|].
    intros l Hlx. apply Hin in Hlx. now destruct Hlx as (n & i & _ & _ & ->).
  - intros c. destruct (ensure_names_added work c db1) as (added & Ea & Ha).
    exists added. rewrite He, Ea. unfold db1.
    rewrite entries_with_restaurants. split; [reflexivity|].
    intros e Hin. destruct (Ha e Hin) as (n & Hw & Hs). exists n.
    split; [|exact Hs]. apply In_work in Hw. now destruct c.
Qed.

Lemma create_appends_one_row_witness :
  exists name,
    b_name osteria = Some name /\ trim name <> []
    /\ ~ In 1 (map r_id (restaurants empty_database))
    /\ restaurants one_place
       = restaurants empty_database
         ++ [mkRestaurant 1 (trim name) (b_neighborhood osteria) (b_borough osteria)
               (Some (default (lit "Unvisited") (b_status osteria)))
               (Production.bit (default false (b_liked osteria)))
               (b_happy_hour osteria) (b_happy_hour_start_time osteria)
               (b_happy_hour_end_time osteria)
               (match b_happy_hour_data osteria with
                | Some d => if truthy d then Some d else None
                | None => None
                end)
               (Production.bit (default false (b_has_happy_hour osteria)))
               (b_notes osteria) (b_what_to_order osteria)
               (b_website_link osteria) (b_latitude osteria)
               (b_longitude osteria) (Some sample_now) (Some sample_now)]
    /\ (forall c, exists new,
          links c one_place = links c empty_database ++ new
          /\ forall l, In l new -> restaurant_id l = 1)
    /\ (forall c, exists added,
          entries c one_place = entries c empty_database ++ added
          /\ forall e, In e added ->
                       exists n, In n (names_of c osteria) /\ snd e = trim n).
Proof.
  apply (create_appends_one_row false sample_now osteria empty_database 1 one_place).
  reflexivity.
Defined.

Lemma put_outcome u now rid b db r d :
  Production.put_restaurant u now rid b db = (r, d) ->
  (exists m, r = Message m) \/ d = db.
Proof.
  unfold Production.put_restaurant.
  destruct (_ && _ && _ && _ && _); [intros H; injection H as _ <-; now right|].
  destruct (0 <? _)%nat.
  - destruct (Production.update_restaurants _ _ _) as (changes & db1).
    destruct (changes =? 0)%nat; [intros H; injection H as _ <-; now right|].
    destruct (Production.updateCuisinesTypesNeighborhoodsAndTags _ _ _ _ _ _ _);
      intros H; injection H as <- <-; [left; eauto|now right].
  - destruct (Production.updateCuisinesTypesNeighborhoodsAndTags _ _ _ _ _ _ _);
      intros H; injection H as <- <-; [left; eauto|now right].
Qed.

(** X6: No create, update or delete gives two lookup rows the same id or the
    same name: a database whose four lookup tables have unique ids and
    unique names is left in such a state, whatever the reply. *)
Theorem lookup_tables_stay_keyed (unique_links : bool) (now : str)
  (restaurantId : N) (b : body) (db : database) :
  keyed db ->
  keyed (snd (Production.post_restaurants unique_links now b db))
  /\ keyed (snd (Production.put_restaurant unique_links now restaurantId b db))
  /\ keyed (snd (Production.delete_restaurant restaurantId db)).
Proof.
  intros Hk. split; [|split].
  - unfold Production.post_restaurants.
    destruct (b_name b) as [name|]; [|exact Hk].
    destruct (negb (truthy name) || negb (truthy (trim name))); [exact Hk|].
    unfold Production.handleRestaurantRelationships.
    match goal with
    | |- context [link_names ?u ?i ?w ?d] =>
        destruct (link_names u i w d) as [db2|] eqn:E
    end; [|exact Hk].
    apply link_names_spec in E. destruct E as (_ & He & _). simpl snd.
    apply (keyed_same_entries _ _ He). apply keyed_ensure_names.
    apply (keyed_same_entries db); [|exact Hk].
    intros c. apply entries_with_restaurants.
  - destruct (Production.put_restaurant unique_links now restaurantId b db)
      as (r & d) eqn:E. simpl snd.
    destruct (put_outcome _ _ _ _ _ _ _ E) as [(m & ->)| ->]; [|exact Hk].
    apply put_succeeded in E. destruct E as (working & Hw & _ & _ & Hu).
    apply update_all_exact in Hu. destruct Hu as (_ & Hk' & _). apply Hk'.
    apply (keyed_same_entries db); [|exact Hk]. intros c. apply Hw.
  - unfold Production.delete_restaurant.
    destruct (Nat.eqb _ 0); [exact Hk|]. simpl snd.
    apply (keyed_same_entries db); [|exact Hk]. intros c. now destruct c.
Qed.

Lemma lookup_tables_stay_keyed_witness :
  keyed (snd (Production.post_restaurants true sample_now joes one_place))
  /\ keyed (snd (Production.put_restaurant true sample_now 1 joes one_place))
  /\ keyed (snd (Production.delete_restaurant 1 one_place)).
Proof.
  apply (lookup_tables_stay_keyed true sample_now 1 joes one_place).
  intros c. destruct c; split; repeat constructor; simpl; tauto.
Defined.

(** ** The scalar fields of an update *)

Lemma restaurant_ext (r r' : restaurant) :
  r_id r = r_id r' -> r_name r = r_name r' ->
  r_neighborhood r = r_neighborhood r' -> r_borough r = r_borough r' ->
  r_status r = r_status r' -> r_liked r = r_liked r' ->
  r_happy_hour r = r_happy_hour r' ->
  r_happy_hour_start_time r = r_happy_hour_start_time r' ->
  r_happy_hour_end_time r = r_happy_hour_end_time r' ->
  r_happy_hour_data r = r_happy_hour_data r' ->
  r_has_happy_hour r = r_has_happy_hour r' -> r_notes r = r_notes r' ->
  r_what_to_order r = r_what_to_order r' ->
  r_website_link r = r_website_link r' -> r_latitude r = r_latitude r' ->
  r_longitude r = r_longitude r' -> r_created_at r = r_created_at r' ->
  r_updated_at r = r_updated_at r' -> r = r'.
Proof. destruct r, r'; simpl; intros; subst; reflexivity. Qed.

(** A pushed assignment to another column leaves a column as it is. *)
Lemma fold_push_other {V A : Type} (column : restaurant -> V) (x : option A)
  (set : A -> Production.assignment) (r : restaurant) :
  (forall v r0, column (Production.assign (set v) r0) = column r0) ->
  column (fold_left (fun r' a => Production.assign a r') (Production.push x set) r)
  = column r.
Proof. intros H. destruct x; simpl; [apply H|reflexivity]. Qed.

Lemma fold_push_hit {V A : Type} (column : restaurant -> V) (x : option A)
  (set : A -> Production.assignment) (r : restaurant) :
  column (fold_left (fun r' a => Production.assign a r') (Production.push x set) r)
  = match x with
    | Some v => column (Production.assign (set v) r)
    | None => column r
    end.
Proof. destruct x; reflexivity. Qed.

Ltac peel_columns :=
  match goal with
  | |- ?column (fold_left _ _ _) = _ =>
      repeat (rewrite (fold_push_other column)
                by (let r0 := fresh "r" in intros ? r0; destruct r0; reflexivity))
  end.

Ltac assigned_column :=
  match goal with
  | |- ?column (Production.assign ?a ?r) = _ =>
      generalize r; let r0 := fresh "r" in intros r0; destruct r0; reflexivity
  end.

Ltac solve_column :=
  try peel_columns;
  first
    [ reflexivity
    | rewrite fold_push_hit;
      match goal with
      | |- match ?x with Some _ => _ | None => _ end = _ =>
          destruct x; [assigned_column|try peel_columns; reflexivity]
      end
    | rewrite fold_push_hit; assigned_column ].

(** The UPDATE of the handler sets the supplied fields and the modification
    time, and nothing else. *)
Lemma assignments_patch (now : str) (b : body) (r : restaurant) :
  fold_left (fun r' a => Production.assign a r')
    (Production.scalar_updates b ++ [Production.set_updated_at now]) r
  = patched now b r.
Proof.
  change [Production.set_updated_at now]
    with (Production.push (Some now) Production.set_updated_at).
  unfold Production.scalar_updates. rewrite !fold_left_app.
  apply restaurant_ext; unfold patched, supplied;
    cbn [r_id r_name r_neighborhood r_borough r_status r_liked r_happy_hour
         r_happy_hour_start_time r_happy_hour_end_time r_happy_hour_data
         r_has_happy_hour r_notes r_what_to_order r_website_link r_latitude
         r_longitude r_created_at r_updated_at];
    solve_column.
Qed.

(** X7: An update is partial in its scalar fields: after a 200 every other row
    is as before and the row of the id carries the supplied fields (the name
    trimmed, and not tested for being blank), its other fields and
    [created_at] as before, and [updated_at] set; a body that carries
    association lists only leaves the row untouched, [updated_at]
    included. *)
Theorem put_patches_the_row (unique_links : bool) (now : str) (restaurantId : N)
  (b : body) (db db' : database) (m : string) :
  Production.put_restaurant unique_links now restaurantId b db = (Message m, db') ->
  (Production.scalar_updates b = [] -> restaurants db' = restaurants db)
  /\ (Production.scalar_updates b <> [] ->
      restaurants db'
      = map (fun r => if r_id r =? restaurantId then patched now b r else r)
          (restaurants db)).
Proof.
  intros Hp. apply put_succeeded in Hp.
  destruct Hp as (working & _ & Hnone & Hsome & Hu).
  apply update_all_exact in Hu. destruct Hu as (-> & _). split; [exact Hnone|].
  intros Hs. rewrite (Hsome Hs).
  apply map_ext. intros r. destruct (r_id r =? restaurantId); [|reflexivity].
  apply assignments_patch.
Qed.

Lemma put_patches_the_row_witness :
  restaurants
    (snd (Production.put_restaurant true sample_now 1
            (with_status "Visited" (named "  Osteria Nuova ")) one_place))
  = map (fun r =>
           if r_id r =? 1
           then patched sample_now (with_status "Visited" (named "  Osteria Nuova ")) r
           else r)
      (restaurants one_place).
Proof.
  apply (put_patches_the_row true sample_now 1
           (with_status "Visited" (named "  Osteria Nuova ")) one_place _
           "Restaurant updated successfully").
  - reflexivity.
  - discriminate.
Defined.

(** ** ORDER BY *)

Lemma str_leb_total (a b : str) : str_leb a b = true \/ str_leb b a = true.
Proof.
  revert b. induction a as [|x a IH]; intros b; [now left|].
  destruct b as [|y b]; [now right|]. simpl.
  destruct (x <? y) eqn:E1; [now left|].
  destruct (y <? x) eqn:E2; [now right|]. apply IH.
Qed.

Lemma In_insert_by {A} (key : A -> str) (x y : A) (l : list A) :
  In y (Lists.insert_by key x l) <-> y = x \/ In y l.
Proof.
  induction l as [|a l IH]; simpl; [intuition|].
  destruct (str_leb (key x) (key a)); simpl; [intuition|].
  rewrite IH. intuition.
Qed.

Lemma insert_by_sorted {A} (key : A -> str) (x : A) (l : list A) :
  Sorted (by_name key) l -> Sorted (by_name key) (Lists.insert_by key x l).
Proof.
  intros H. induction H as [|a l Hs IH Hd]; simpl.
  - repeat constructor.
  - destruct (str_leb (key x) (key a)) eqn:E.
    + constructor; [now constructor|]. now constructor.
    + constructor; [exact IH|].
      assert (Hax : by_name key a x).
      { destruct (str_leb_total (key a) (key x)) as [H|H]; [exact H|].
        unfold by_name. congruence. }
      destruct Hd as [|b l Hb]; simpl; [now constructor|].
      destruct (str_leb (key x) (key b)); now constructor.
Qed.

Lemma order_by_sorted {A} (key : A -> str) (l : list A) :
  Sorted (by_name key) (Lists.order_by key l).
Proof.
  induction l as [|a l IH]; simpl; [constructor|]. now apply insert_by_sorted.
Qed.

Lemma insert_by_permutation {A} (key : A -> str) (x : A) (l : list A) :
  Permutation (Lists.insert_by key x l) (x :: l).
Proof.
  induction l as [|a l IH]; simpl; [reflexivity|].
  destruct (str_leb (key x) (key a)); [reflexivity|].
  rewrite IH. apply perm_swap.
Qed.

Lemma order_by_permutation {A} (key : A -> str) (l : list A) :
  Permutation (Lists.order_by key l) l.
Proof.
  induction l as [|a l IH]; simpl; [reflexivity|].
  rewrite insert_by_permutation. now constructor.
Qed.

Lemma order_by_name_generic (l : list restaurant) :
  order_by_name l = Lists.order_by r_name l.
Proof.
  unfold order_by_name, Lists.order_by.
  induction l as [|a l IH]; simpl; [reflexivity|]. rewrite IH.
  generalize (fold_right (Lists.insert_by r_name) [] l) as s.
  induction s as [|x s IHs]; simpl; [reflexivity|]. now rewrite IHs.
Qed.

Lemma sorted_block {A} (R : A -> A -> Prop) (before page after : list A) :
  Sorted R (before ++ page ++ after) -> Sorted R page.
Proof.
  induction before as [|a before IH]; simpl.
  - induction page as [|p page IHp]; simpl; intros H; [constructor|].
    apply Sorted_inv in H. destruct H as (H & Hd).
    constructor; [now apply IHp|].
    destruct page; simpl in *; [constructor|].
    apply HdRel_inv in Hd. now constructor.
  - intros H. apply Sorted_inv in H. now apply IH.
Qed.

Lemma sorted_map {A B} (R : A -> A -> Prop) (R' : B -> B -> Prop) (f : A -> B)
  (l : list A) :
  (forall a b, R a b -> R' (f a) (f b)) -> Sorted R l -> Sorted R' (map f l).
Proof.
  intros Hf H. induction H as [|a l Hs IH Hd]; simpl; [constructor|].
  constructor; [exact IH|]. destruct Hd; simpl; constructor. now apply Hf.
Qed.

(** ** The page of a listing *)

(** X8: Whatever the query, a listing that is answered holds stored restaurants
    that pass the equality filters, in the order of their names, and no more
    of them than a non-negative limit (10000 when none is given). *)
Theorem listing_is_a_sorted_page (q : query) (db : database)
  (rows : list restaurant_json) :
  Production.get_restaurants q db = RestaurantList rows ->
  (forall o, In o rows ->
     exists r, In r (restaurants db) /\ passes_equality q r = true
               /\ o = Production.shape db r)
  /\ Sorted (by_name (fun o => r_name (j_row o))) rows
  /\ ((0 <= default Production.default_limit (q_limit q))%Z ->
      (List.length rows
       <= Z.to_nat (default Production.default_limit (q_limit q)))%nat).
Proof.
  intros Hq. split; [intros o; now apply listed_is_stored|].
  revert Hq. unfold Production.get_restaurants, run_select.
  destruct (group_filter _) as [keep|]; [|discriminate]. simpl.
  intros H. injection H as <-. split.
  - apply (sorted_map (by_name r_name)); [trivial|].
    match goal with
    | |- Sorted _ (limit_offset ?l ?o ?rs) =>
        destruct (limit_offset_block l o rs) as (before & after & E);
        apply (sorted_block _ before _ after); rewrite <- E
    end.
    rewrite order_by_name_generic. apply order_by_sorted.
  - intros Hl. rewrite length_map. unfold limit_offset.
    change (sel_limit (Production.build_query q))
      with (default Production.default_limit (q_limit q)).
    replace (default Production.default_limit (q_limit q) <? 0)%Z with false
      by (symmetry; apply Z.ltb_ge; exact Hl).
    apply firstn_le_length.
Qed.

Lemma listing_is_a_sorted_page_witness :
  (forall o, In o [Production.shape one_place
                     (hd (mkRestaurant 0 [] None None None 0 None None None None
                            0 None None None None None None None)
                        (restaurants one_place))] ->
     exists r, In r (restaurants one_place)
               /\ passes_equality italian_thai_manhattan r = true
               /\ o = Production.shape one_place r)
  /\ Sorted (by_name (fun o => r_name (j_row o)))
       [Production.shape one_place
          (hd (mkRestaurant 0 [] None None None 0 None None None None
                 0 None None None None None None None)
             (restaurants one_place))]
  /\ ((0 <= default Production.default_limit (q_limit italian_thai_manhattan))%Z ->
      (List.length
         [Production.shape one_place
            (hd (mkRestaurant 0 [] None None None 0 None None None None
                   0 None None None None None None None)
               (restaurants one_place))]
       <= Z.to_nat (default Production.default_limit
                      (q_limit italian_thai_manhattan)))%nat).
Proof.
  apply (listing_is_a_sorted_page italian_thai_manhattan one_place).
  reflexivity.
Defined.

(** ** Set parameters without a value *)

Lemma category_fragment_valueless k (c : category) (p : option str) :
  valueless p -> category_fragment k c p = [].
Proof.
  unfold valueless, category_fragment. destruct p as [raw|]; [|reflexivity].
  simpl. now intros ->.
Qed.


(** X9: Set parameters that name no value, such as [cuisines=,], leave the
    listing as it is without them, when none of the four names one. *)
Theorem valueless_set_parameters_are_ignored (q : query) (db : database) :
  valueless (q_cuisines q) -> valueless (q_neighborhoods q) ->
  valueless (q_types q) -> valueless (q_tags q) ->
  Production.get_restaurants q db
  = Production.get_restaurants (without_sets q) db.
Proof.
  intros Hc Hn Ht Hg. unfold Production.get_restaurants.
  replace (Production.build_query q)
    with (Production.build_query (without_sets q)); [reflexivity|].
  unfold Production.build_query, without_sets. cbv zeta. simpl.
  rewrite !(category_fragment_valueless _ _ _ Hc),
    !(category_fragment_valueless _ _ _ Hn),
    !(category_fragment_valueless _ _ _ Ht),
    !(category_fragment_valueless _ _ _ Hg).
  destruct (given (q_cuisines q)), (given (q_neighborhoods q)),
    (given (q_types q)), (given (q_tags q)); reflexivity.
Qed.

Lemma valueless_set_parameters_are_ignored_witness :
  Production.get_restaurants commas_visited one_place
  = Production.get_restaurants (without_sets commas_visited) one_place.
Proof.
  apply (valueless_set_parameters_are_ignored commas_visited one_place);
    reflexivity.
Defined.



(** ** The lists of a reply *)

Lemma default_tag_color_clean :
  default_tag_color <> [] /\ ~ In comma default_tag_color
  /\ ~ In colon default_tag_color.
Proof.
  repeat split; [discriminate| |];
    intros H; repeat (destruct H as [H|H]; [discriminate H|]); exact H.
Qed.

Lemma parse_tag_clean (t : str) :
  ~ In comma t ->
  tj_color (parse_tag t) <> []
  /\ ~ In colon (tj_name (parse_tag t)) /\ ~ In comma (tj_name (parse_tag t))
  /\ ~ In comma (tj_color (parse_tag t)) /\ ~ In colon (tj_color (parse_tag t)).
Proof.
  intros Ht. destruct default_tag_color_clean as (D1 & D2 & D3).
  pose proof (parse_tag_name_piece t) as Hn.
  assert (Hname : ~ In colon (tj_name (parse_tag t))
                  /\ ~ In comma (tj_name (parse_tag t))).
  { split; [now apply (split_pieces_no_sep colon t)|].
    intros H. apply Ht. now apply (split_pieces_subset colon t _ comma Hn). }
  destruct Hname as (N1 & N2). split; [|split; [exact N1|split; [exact N2|]]].
  - unfold parse_tag. destruct (split colon t) as [|name [|color rest]];
      simpl; try exact D1.
    destruct color; simpl; [exact D1|discriminate].
  - unfold parse_tag.
    destruct (split colon t) as [|name [|color rest]] eqn:E; simpl; auto.
    destruct (truthy color); simpl; auto.
    assert (Hin : In color (split colon t)) by (rewrite E; right; now left).
    split; [|now apply (split_pieces_no_sep colon t)].
    intros H. apply Ht. now apply (split_pieces_subset colon t _ comma Hin).
Qed.

(** X11: No name in a restaurant object holds a comma; no tag name holds a
    colon, and every tag has a colour that is not empty and holds neither a
    comma nor a colon. *)
Theorem reply_lists_are_clean (db : database) (r : restaurant) :
  (forall c, Forall (fun x => ~ In comma x)
               (json_names c (Production.shape db r)))
  /\ Forall (fun t => tj_color t <> [] /\ ~ In colon (tj_name t)
                      /\ ~ In comma (tj_color t) /\ ~ In colon (tj_color t))
       (j_tags (Production.shape db r)).
Proof.
  split.
  - intros c. apply Forall_forall. intros x Hx.
    destruct c; simpl in Hx;
      solve [now apply split_names_no_comma in Hx
            |now apply tag_names_no_comma in Hx].
  - apply Forall_forall. intros t Ht. simpl in Ht.
    apply in_map_iff in Ht. destruct Ht as (t0 & <- & Ht0).
    apply split_names_no_comma in Ht0.
    destruct (parse_tag_clean t0 Ht0) as (H1 & H2 & _ & H4 & H5). auto.
Qed.

(** ** What the search condition accepts *)

Lemma like_percent_inv (pat s : str) :
  like (percent :: pat) s = true ->
  exists pre t, s = pre ++ t /\ like pat t = true.
Proof.
  induction s as [|c s IH]; rewrite like_percent_unfold; intros H.
  - rewrite orb_false_r in H. now exists [], [].
  - apply orb_true_iff in H. destruct H as [H|H].
    + now exists [], (c :: s).
    + destruct (IH H) as (pre & t & -> & Ht). now exists (c :: pre), t.
Qed.

Lemma like_literal_inv (v t : str) :
  ~ In percent v -> ~ In underscore v ->
  like (v ++ [percent]) t = true ->
  exists mid post, t = mid ++ post /\ map fold_case mid = map fold_case v.
Proof.
  revert t. induction v as [|p v IH]; intros t Hp Hu H.
  - now exists [], t.
  - simpl in H.
    destruct (p =? percent) eqn:E1;
      [apply N.eqb_eq in E1; exfalso; apply Hp; now left|].
    destruct (p =? underscore) eqn:E2;
      [apply N.eqb_eq in E2; exfalso; apply Hu; now left|].
    destruct t as [|c t]; [discriminate|].
    simpl in H. apply andb_true_iff in H. destruct H as (Hc & H).
    apply N.eqb_eq in Hc.
    destruct (IH t) as (mid & post & -> & Hm); auto.
    + intros Hin. apply Hp. now right.
    + intros Hin. apply Hu. now right.
    + exists (c :: mid), post. split; [reflexivity|]. simpl. now rewrite Hc, Hm.
Qed.

Lemma like_contains_inv (v s : str) :
  ~ In percent v -> ~ In underscore v ->
  like (contains_pattern v) s = true -> appears_in v s.
Proof.
  intros Hp Hu H. apply like_percent_inv in H.
  destruct H as (pre & t & -> & H).
  destruct (like_literal_inv v t Hp Hu H) as (mid & post & -> & Hm).
  now exists pre, mid, post.
Qed.

Lemma fold_case_comma (c : char) : fold_case c = comma -> c = comma.
Proof.
  unfold fold_case, comma.
  destruct ((65 <=? c) && (c <=? 90)) eqn:E; [|trivial].
  apply andb_true_iff in E. destruct E as (E1 & E2).
  apply N.leb_le in E1. lia.
Qed.

Lemma folded_without_comma (mid v : str) :
  map fold_case mid = map fold_case v -> ~ In comma v -> ~ In comma mid.
Proof.
  intros E Hv Hm. apply (in_map fold_case) in Hm. rewrite E in Hm.
  apply in_map_iff in Hm. destruct Hm as (c & Hc & Hin).
  change (fold_case comma) with comma in Hc.
  apply fold_case_comma in Hc. subst c. contradiction.
Qed.

(** A text without the separator that occurs in the joined names occurs in
    one of them. *)
Lemma join_occurrence (sep : char) (l : list str) (pre mid post : str) :
  l <> [] -> ~ In sep mid -> join sep l = pre ++ mid ++ post ->
  exists n pre' post', In n l /\ n = pre' ++ mid ++ post'.
Proof.
  intros Hl Hs. revert pre. induction l as [|w l IH]; [congruence|].
  intros pre E. destruct l as [|w' l].
  - exists w, pre, post. split; [now left|exact E].
  - change (join sep (w :: w' :: l)) with (w ++ sep :: join sep (w' :: l)) in E.
    apply app_eq_app in E. destruct E as (k & [(E1 & E2)|(E1 & E2)]).
    + apply app_eq_app in E2.
      destruct E2 as (k2 & [(E3 & E4)|(E3 & E4)]).
      * destruct k2 as [|c k2].
        -- exists w, pre, []. split; [now left|].
           rewrite E1, E3. rewrite !app_nil_r. reflexivity.
        -- exfalso. apply Hs. injection E4 as <- _. rewrite E3.
           apply in_or_app. right. now left.
      * exists w, pre, k2. split; [now left|]. now rewrite E1, E3.
    + destruct k as [|c k].
      * simpl in E2. destruct mid as [|m mid].
        -- exists w, w, []. split; [now left|]. now rewrite !app_nil_r.
        -- exfalso. apply Hs. injection E2 as <- _. now left.
      * injection E2 as _ E2.
        destruct (IH ltac:(discriminate) k E2) as (n & pre' & post' & Hin & En).
        exists n, pre', post'. split; [now right|exact En].
Qed.

Lemma like_group_concat_inv (v : str) (names : list str) :
  plain v ->
  like_column (contains_pattern v) (group_concat_distinct names) = true ->
  exists n, In n names /\ appears_in v n.
Proof.
  intros (Hp & Hu & Hc) H. destruct names as [|a names]; [discriminate|].
  unfold group_concat_distinct, like_column in H.
  apply like_contains_inv in H; auto.
  destruct H as (pre & mid & post & E & Hm).
  destruct (join_occurrence comma (distinct (a :: names)) pre mid post)
    as (n & pre' & post' & Hin & En).
  - simpl. discriminate.
  - now apply (folded_without_comma mid v).
  - exact E.
  - exists n. split; [exact (proj1 (In_distinct _ _) Hin)|].
    now exists pre', mid, post'.
Qed.

(** X12: For a term without [%], [_] and comma the search condition holds exactly
    when the term occurs, up to ASCII case, in the name, the notes,
    what_to_order, the borough or one linked name. *)
Theorem plain_search_is_containment (s : str) (db : database) (r : restaurant) :
  plain s -> (text_matches s db r = true <-> text_appears s db r).
Proof.
  intros Hs. split; [|apply text_appears_matches].
  pose proof Hs as (Hp & Hu & _).
  unfold text_matches, text_appears, eval_having. rewrite !orb_true_iff.
  assert (Hcol : forall col, like_column (contains_pattern s) col = true ->
                             appears_in_column s col).
  { intros [t|] H; [|discriminate]. now apply like_contains_inv. }
  assert (Hagg : forall c,
             like_column (contains_pattern s) (aggregate c db (r_id r)) = true ->
             exists c' n, In n (linked_names c' db (r_id r)) /\ appears_in s n).
  { intros c H. apply like_group_concat_inv in H; [|exact Hs].
    destruct H as (n & Hin & Hn). now exists c, n. }
  intros [[[[[[[H|H]|H]|H]|H]|H]|H]|H]; eauto 6.
  left. now apply like_contains_inv.
Qed.

Lemma plain_search_is_containment_witness :
  text_matches (lit "negroni") bar_place
    (hd (mkRestaurant 0 [] None None None 0 None None None None
           0 None None None None None None None)
       (restaurants bar_place)) = true
  <-> text_appears (lit "negroni") bar_place
        (hd (mkRestaurant 0 [] None None None 0 None None None None
               0 None None None None None None None)
           (restaurants bar_place)).
Proof.
  apply (plain_search_is_containment (lit "negroni") bar_place).
  repeat split; intros H;
    repeat (destruct H as [H|H]; [discriminate H|]); exact H.
Defined.




(** ** The reference lists *)

Lemma In_order_by {A} (key : A -> str) (x : A) (l : list A) :
  In x (Lists.order_by key l) <-> In x l.
Proof.
  split; apply Permutation_in;
    [|symmetry]; apply order_by_permutation.
Qed.

(** X14: GET /api/cuisines, /api/types and /api/tags answer with every row of
    their table, GET /api/neighborhoods with every name of its table, each
    once per row and in the order of the names. *)
Theorem reference_lists_are_ordered (db : database) :
  (Sorted (by_name l_name) (Lists.get_cuisines db)
   /\ Permutation (Lists.get_cuisines db) (cuisines db))
  /\ (Sorted (by_name l_name) (Lists.get_types db)
      /\ Permutation (Lists.get_types db) (types db))
  /\ (Sorted (by_name tg_name) (Lists.get_tags db)
      /\ Permutation (Lists.get_tags db) (tags db))
  /\ (Sorted (by_name (fun n => n)) (Lists.get_neighborhoods db)
      /\ Permutation (Lists.get_neighborhoods db)
           (map l_name (neighborhoods db))).
Proof.
  unfold Lists.get_cuisines, Lists.get_types, Lists.get_tags,
    Lists.get_neighborhoods.
  repeat split; try apply order_by_sorted; try apply order_by_permutation.
  - apply (sorted_map (by_name l_name)); [trivial|apply order_by_sorted].
  - apply Permutation_map, order_by_permutation.
Qed.

Lemma reference_names_entries (c : category) (db : database) (x : str) :
  In x (reference_names c db) <-> In x (map snd (entries c db)).
Proof.
  destruct c; simpl; rewrite map_map; simpl;
    unfold Lists.get_cuisines, Lists.get_types, Lists.get_tags,
      Lists.get_neighborhoods;
    rewrite !in_map_iff; split; intros (l & E & H); exists l;
      (split; [exact E|]);
      first [exact (proj1 (In_order_by _ _ _) H)
            |exact (proj2 (In_order_by _ _ _) H)].
Qed.

Lemma created_entries u now b db N db' :
  Production.post_restaurants u now b db = (Created N, db') ->
  forall c, exists added,
    entries c db' = entries c db ++ added
    /\ forall e, In e added -> exists n, In n (names_of c b) /\ snd e = trim n.
Proof.
  unfold Production.post_restaurants.
  destruct (b_name b) as [name|]; [|discriminate].
  destruct (negb (truthy name) || negb (truthy (trim name))); [discriminate|].
  unfold Production.handleRestaurantRelationships.
  set (work := map (pair Cuisines) _ ++ _).
  set (db1 := with_restaurants _ db).
  destruct (link_names u _ work (ensure_names work db1)) as [db2|] eqn:E;
    [|discriminate].
  intros H. injection H as _ <-.
  apply link_names_spec in E. destruct E as (_ & He & _).
  intros c. destruct (ensure_names_added work c db1) as (added & Ea & Ha).
  exists added. rewrite He, Ea. unfold db1.
  rewrite entries_with_restaurants. split; [reflexivity|].
  intros e Hin. destruct (Ha e Hin) as (n & Hw & Hs). exists n.
  split; [|exact Hs]. apply In_work in Hw. now destruct c.
Qed.

(** X15: After a create that answers 200 the reference list of each category
    shows the names it showed before and the trimmed names of the body,
    and no other. *)
Theorem created_names_are_listed (unique_links : bool) (now : str) (b : body)
  (db : database) (N : N) (db' : database) :
  Production.post_restaurants unique_links now b db = (Created N, db') ->
  forall c x,
    In x (reference_names c db')
    <-> In x (reference_names c db)
        \/ exists n, In n (names_of c b) /\ x = trim n.
Proof.
  intros H c x. rewrite !reference_names_entries.
  destruct (created_entries _ _ _ _ _ _ H c) as (added & E & Ha).
  destruct (created_spec _ _ _ _ _ _ H) as (_ & _ & _ & Hp & _).
  rewrite E, map_app, in_app_iff. split.
  - intros [Hx|Hx]; [now left|right].
    apply in_map_iff in Hx. destruct Hx as (e & <- & He). now apply Ha.
  - intros [Hx|(n & Hn & ->)]; [now left|].
    destruct (Hp c n Hn) as (i & Hi). rewrite <- in_app_iff, <- map_app, <- E.
    apply in_map_iff. now exists (i, trim n).
Qed.

Lemma created_names_are_listed_witness :
  In (lit "Italian") (reference_names Cuisines one_place)
  <-> In (lit "Italian") (reference_names Cuisines empty_database)
      \/ exists n, In n (names_of Cuisines osteria) /\ lit "Italian" = trim n.
Proof.
  apply (created_names_are_listed false sample_now osteria empty_database 1).
  reflexivity.
Defined.

(** ** Boroughs and legacy neighborhoods *)

Lemma In_not_null (column : restaurant -> option str) (rs : list restaurant)
  (v : str) :
  In v (Lists.not_null column rs) <-> exists r, In r rs /\ column r = Some v.
Proof.
  unfold Lists.not_null. rewrite in_flat_map. split.
  - intros (r & Hr & Hv). exists r. split; [exact Hr|].
    destruct (column r); [|contradiction]. destruct Hv as [->|[]]. reflexivity.
  - intros (r & Hr & E). exists r. split; [exact Hr|]. rewrite E. now left.
Qed.

Lemma distinct_once (l : list str) : NoDup (distinct l).
Proof.
  induction l as [|a l IH]; simpl; constructor.
  - rewrite filter_In. intros (_ & H). now rewrite str_eqb_refl in H.
  - now apply NoDup_filter.
Qed.

Lemma distinct_column (column : restaurant -> option str)
  (rs : list restaurant) :
  let listed :=
    Lists.order_by (fun v => v) (distinct (Lists.not_null column rs)) in
  (forall v, In v listed <-> exists r, In r rs /\ column r = Some v)
  /\ NoDup listed /\ Sorted (by_name (fun v => v)) listed.
Proof.
  cbv zeta. split; [|split].
  - intros v. now rewrite In_order_by, In_distinct, In_not_null.
  - apply (Permutation_NoDup (l := distinct (Lists.not_null column rs)));
      [symmetry; apply order_by_permutation|apply distinct_once].
  - apply order_by_sorted.
Qed.

(** X16: GET /api/boroughs lists exactly the boroughs that stored restaurants
    carry, the empty text among them when one carries it, each once and in
    order; GET /api/neighborhoods of the development server does the same
    with the legacy neighborhood column. *)
Theorem column_lists_are_the_distinct_values (db : database) :
  ((forall v, In v (Lists.get_boroughs db)
              <-> exists r, In r (restaurants db) /\ r_borough r = Some v)
   /\ NoDup (Lists.get_boroughs db)
   /\ Sorted (by_name (fun v => v)) (Lists.get_boroughs db))
  /\ ((forall v, In v (Lists.get_legacy_neighborhoods db)
                 <-> exists r, In r (restaurants db)
                               /\ r_neighborhood r = Some v)
      /\ NoDup (Lists.get_legacy_neighborhoods db)
      /\ Sorted (by_name (fun v => v)) (Lists.get_legacy_neighborhoods db)).
Proof.
  split.
  - apply (distinct_column r_borough).
  - apply (distinct_column r_neighborhood).
Qed.

(** ** The statistics *)

Lemma count_last (p : restaurant -> bool) (l : list restaurant) (r : restaurant) :
  List.length (filter p (l ++ [r]))
  = (List.length (filter p l) + count_if (p r))%nat.
Proof.
  rewrite filter_app, length_app. simpl. now destruct (p r).
Qed.

(** X17: The counts of visited and of liked restaurants never exceed the total;
    a create that answers 200 raises the total by one, the visited count
    when the status it stores is Visited, the liked count when the body
    says liked, and lowers no count of a lookup table. *)
Theorem stats_follow_a_create (unique_links : bool) (now : str) (b : body)
  (db : database) (N : N) (db' : database) :
  Production.post_restaurants unique_links now b db = (Created N, db') ->
  let before := Lists.get_stats db in
  let after := Lists.get_stats db' in
  (Lists.visited_restaurants after <= Lists.total_restaurants after)%nat
  /\ (Lists.liked_restaurants after <= Lists.total_restaurants after)%nat
  /\ Lists.total_restaurants after = S (Lists.total_restaurants before)
  /\ Lists.visited_restaurants after
     = (Lists.visited_restaurants before
        + count_if (str_eqb (default (lit "Unvisited") (b_status b))
                      (lit "Visited")))%nat
  /\ Lists.liked_restaurants after
     = (Lists.liked_restaurants before + count_if (default false (b_liked b)))%nat
  /\ (Lists.total_cuisines before <= Lists.total_cuisines after)%nat
  /\ (Lists.total_types before <= Lists.total_types after)%nat
  /\ (Lists.total_tags before <= Lists.total_tags after)%nat.
Proof.
  intros H. cbv zeta. unfold Lists.get_stats. simpl.
  split; [apply length_filter_le|]. split; [apply length_filter_le|].
  destruct (created_spec _ _ _ _ _ _ H)
    as (_ & (row & Hr & _ & Hs & Hl) & _ & _ & He & _).
  rewrite Hr, !count_last, length_app. simpl.
  split; [lia|]. split.
  { f_equal. unfold Lists.is_visited. now rewrite Hs. }
  split.
  { f_equal. rewrite Hl. now destruct (default false (b_liked b)). }
  pose proof (He Cuisines) as (e1 & E1).
  pose proof (He Types) as (e2 & E2).
  pose proof (He Tags) as (e3 & E3).
  apply (f_equal (@List.length _)) in E1, E2, E3.
  simpl in E1, E2, E3. rewrite length_app, !length_map in E1, E2, E3.
  lia.
Qed.

Lemma stats_follow_a_create_witness :
  let before := Lists.get_stats empty_database in
  let after := Lists.get_stats one_place in
  (Lists.visited_restaurants after <= Lists.total_restaurants after)%nat
  /\ (Lists.liked_restaurants after <= Lists.total_restaurants after)%nat
  /\ Lists.total_restaurants after = S (Lists.total_restaurants before)
  /\ Lists.visited_restaurants after
     = (Lists.visited_restaurants before
        + count_if (str_eqb (default (lit "Unvisited") (b_status osteria))
                      (lit "Visited")))%nat
  /\ Lists.liked_restaurants after
     = (Lists.liked_restaurants before
        + count_if (default false (b_liked osteria)))%nat
  /\ (Lists.total_cuisines before <= Lists.total_cuisines after)%nat
  /\ (Lists.total_types before <= Lists.total_types after)%nat
  /\ (Lists.total_tags before <= Lists.total_tags after)%nat.
Proof.
  apply (stats_follow_a_create false sample_now osteria empty_database 1).
  reflexivity.
Defined.

(** ** The scratchpad *)

Lemma find_replaced (now : str) (content : option str) (t : Scratchpad.table) :
  find (fun n => Scratchpad.n_id n =? 1) (Scratchpad.post_scratchpad now content t)
  = Some (Scratchpad.mkNote 1 content (Some now)).
Proof.
  unfold Scratchpad.post_scratchpad.
  induction t as [|n t IH]; simpl; [reflexivity|].
  destruct (Scratchpad.n_id n =? 1) eqn:E; simpl; [exact IH|].
  now rewrite E.
Qed.

(** X18: What is written to the scratchpad is what is read from it next, a
    missing content as null; the write keeps the rows of other ids, leaves
    one row of id 1, and a second write makes the first one void. *)
Theorem scratchpad_round_trip (now now' : str) (content content' : option str)
  (t : Scratchpad.table) :
  Scratchpad.get_scratchpad (Scratchpad.post_scratchpad now content t) = content
  /\ (forall n, Scratchpad.n_id n <> 1 ->
        (In n (Scratchpad.post_scratchpad now content t) <-> In n t))
  /\ List.length
       (filter (fun n => Scratchpad.n_id n =? 1)
          (Scratchpad.post_scratchpad now content t)) = 1%nat
  /\ Scratchpad.post_scratchpad now' content'
       (Scratchpad.post_scratchpad now content t)
     = Scratchpad.post_scratchpad now' content' t.
Proof.
  split; [|split; [|split]].
  - unfold Scratchpad.get_scratchpad. now rewrite find_replaced.
  - intros n Hn. unfold Scratchpad.post_scratchpad.
    rewrite in_app_iff, filter_In. apply N.eqb_neq in Hn. rewrite Hn. simpl.
    split; [|tauto].
    intros [(H & _)|[<-|[]]]; [exact H|]. now rewrite N.eqb_refl in Hn.
  - unfold Scratchpad.post_scratchpad. rewrite filter_app. simpl.
    rewrite length_app. simpl.
    induction t as [|n t IH]; simpl; [reflexivity|].
    destruct (Scratchpad.n_id n =? 1) eqn:E; simpl; [exact IH|].
    now rewrite E.
  - unfold Scratchpad.post_scratchpad. f_equal.
    rewrite filter_app. simpl. rewrite app_nil_r.
    induction t as [|n t IH]; simpl; [reflexivity|].
    destruct (Scratchpad.n_id n =? 1) eqn:E; simpl; [exact IH|].
    now rewrite E, IH.
Qed.

(** ** The happy hour texts *)

Lemma starts_with_prefix (k k' s : str) :
  HappyHour.starts_with (k ++ k') s = true -> HappyHour.starts_with k s = true.
Proof.
  revert s. induction k as [|a k IH]; intros s; simpl; [reflexivity|].
  destruct s as [|b s]; [discriminate|]. rewrite !andb_true_iff.
  intros (H1 & H2). split; [exact H1|now apply IH].
Qed.

Lemma includes_prefix (s k k' : str) :
  HappyHour.includes s (k ++ k') = true -> HappyHour.includes s k = true.
Proof.
  induction s as [|c s IH]; simpl; rewrite !orb_true_iff.
  - intros [H|H]; [left; now apply (starts_with_prefix k k')|discriminate].
  - intros [H|H]; [left; now apply (starts_with_prefix k k')|right; now apply IH].
Qed.

Lemma includes_either (s k k' : str) :
  HappyHour.includes s (k ++ k') || HappyHour.includes s k
  = HappyHour.includes s k.
Proof.
  destruct (HappyHour.includes s (k ++ k')) eqn:E; [|reflexivity].
  now rewrite (includes_prefix _ _ _ E).
Qed.

Lemma day_by_abbreviation (text : str) (short rest : string) :
  HappyHour.day text (short ++ rest) short
  = if HappyHour.includes text (lit short) then [lit (short ++ rest)] else [].
Proof.
  unfold HappyHour.day.
  replace (lit (short ++ rest)) with (lit short ++ lit rest).
  - now rewrite includes_either.
  - unfold lit. rewrite <- map_app. f_equal.
    induction short as [|a short IH]; simpl; [reflexivity|]. now rewrite IH.
Qed.

Lemma named_days_clean (m tu w th f sa su : bool) :
  let ds :=
    (if m then [lit "monday"] else []) ++ (if tu then [lit "tuesday"] else [])
    ++ (if w then [lit "wednesday"] else [])
    ++ (if th then [lit "thursday"] else [])
    ++ (if f then [lit "friday"] else []) ++ (if sa then [lit "saturday"] else [])
    ++ (if su then [lit "sunday"] else []) in
  NoDup ds /\ incl ds (HappyHour.weekdays ++ HappyHour.weekend)
  /\ (ds = [] <-> m || tu || w || th || f || sa || su = false).
Proof.
  cbv zeta.
  destruct m, tu, w, th, f, sa, su; simpl;
    (split; [repeat constructor; simpl; intuition discriminate|]);
    (split; [intros x Hx; simpl in Hx |-*; tauto|]);
    split; intros H; try reflexivity; discriminate H.
Qed.

(** X19: A text that is not empty gives one schedule that carries the text as
    its notes and no offers.  Its days are never repeated; they are the one
    word unknown exactly when the lowered text holds none of the keywords,
    and names of days otherwise. *)
Theorem happy_hour_text_gives_one_schedule (toLowerCase : str -> str)
  (original : str) (startTime endTime : option str) :
  original <> [] ->
  exists ds,
    HappyHour.parseExistingHappyHour toLowerCase (Some original) startTime endTime
    = [HappyHour.mkSchedule ds (HappyHour.or_null startTime)
         (HappyHour.or_null endTime) [] [] original]
    /\ NoDup ds
    /\ (ds = [lit "unknown"]
        \/ (ds <> [] /\ incl ds (HappyHour.weekdays ++ HappyHour.weekend)))
    /\ (ds = [lit "unknown"]
        <-> existsb (HappyHour.includes (toLowerCase original)) keywords = false).
Proof.
  intros Hne. unfold HappyHour.parseExistingHappyHour.
  destruct original as [|c0 o]; [congruence|]. cbn [truthy negb].
  set (text := toLowerCase (c0 :: o)).
  change (HappyHour.day text "monday" "mon")
    with (HappyHour.day text ("mon" ++ "day") "mon").
  change (HappyHour.day text "tuesday" "tue")
    with (HappyHour.day text ("tue" ++ "sday") "tue").
  change (HappyHour.day text "wednesday" "wed")
    with (HappyHour.day text ("wed" ++ "nesday") "wed").
  change (HappyHour.day text "thursday" "thu")
    with (HappyHour.day text ("thu" ++ "rsday") "thu").
  change (HappyHour.day text "friday" "fri")
    with (HappyHour.day text ("fri" ++ "day") "fri").
  change (HappyHour.day text "saturday" "sat")
    with (HappyHour.day text ("sat" ++ "urday") "sat").
  change (HappyHour.day text "sunday" "sun")
    with (HappyHour.day text ("sun" ++ "day") "sun").
  rewrite !day_by_abbreviation. cbn [String.append].
  pose proof (includes_prefix text (lit "mon") (lit "-fri")) as Hmf.
  pose proof (includes_prefix text (lit "mon") (lit "day-friday")) as Hmdf.
  change (lit "mon" ++ lit "-fri") with (lit "mon-fri") in Hmf.
  change (lit "mon" ++ lit "day-friday") with (lit "monday-friday") in Hmdf.
  unfold keywords. cbn [existsb map].
  set (m := HappyHour.includes text (lit "mon")) in *.
  set (tu := HappyHour.includes text (lit "tue")).
  set (w := HappyHour.includes text (lit "wed")).
  set (th := HappyHour.includes text (lit "thu")).
  set (f := HappyHour.includes text (lit "fri")).
  set (sa := HappyHour.includes text (lit "sat")).
  set (su := HappyHour.includes text (lit "sun")).
  destruct (named_days_clean m tu w th f sa su) as (Hnd & Hin & Hnil).
  set (named := _ ++ _) in Hnd, Hin, Hnil |- *.
  clearbody named m tu w th f sa su. eexists. split; [reflexivity|].
  destruct (HappyHour.includes text (lit "daily")) eqn:Eda;
    [|destruct (HappyHour.includes text (lit "every day")) eqn:Eed;
      [|destruct (HappyHour.includes text (lit "weekend")) eqn:Ewe;
        [|destruct (HappyHour.includes text (lit "mon-fri")) eqn:Emf;
          [|destruct (HappyHour.includes text (lit "monday-friday")) eqn:Emdf;
            [|destruct (HappyHour.includes text (lit "weekday")) eqn:Ewd]]]]];
    cbn [orb];
    try rewrite (Hmf eq_refl); try rewrite (Hmdf eq_refl);
    try (simpl;
         split; [repeat constructor; simpl; intuition discriminate|];
         split; [right; split; [discriminate|intros x Hx; simpl in Hx |- *; tauto]|];
         split; [discriminate|];
         intros H; exfalso; repeat (rewrite ?orb_true_r in H; cbn [orb] in H);
         discriminate H).
  destruct named as [|d named]; simpl.
  - split; [repeat constructor; simpl; tauto|]. split; [now left|].
    split; [intros _|reflexivity].
    pose proof (proj1 Hnil eq_refl) as Hb. rewrite !orb_false_iff in Hb.
    destruct Hb as ((((((-> & ->) & ->) & ->) & ->) & ->) & ->). reflexivity.
  - split; [exact Hnd|]. split; [right; split; [discriminate|exact Hin]|].
    split.
    + intros E. exfalso. specialize (Hin (lit "unknown")). rewrite E in Hin.
      specialize (Hin (or_introl eq_refl)). simpl in Hin.
      repeat (destruct Hin as [Hin|Hin]; [discriminate Hin|]). exact Hin.
    + intros H. exfalso. rewrite !orb_false_iff in H.
      destruct H as (-> & -> & -> & -> & -> & -> & -> & _).
      destruct Hnil as (_ & Hnil). discriminate (Hnil eq_refl).
Qed.

Lemma happy_hour_text_gives_one_schedule_witness :
  exists ds,
    HappyHour.parseExistingHappyHour ascii_lower (Some (lit "Mon-Fri 4-6pm"))
      (Some (lit "16:00")) None
    = [HappyHour.mkSchedule ds (HappyHour.or_null (Some (lit "16:00")))
         (HappyHour.or_null None) [] [] (lit "Mon-Fri 4-6pm")]
    /\ NoDup ds
    /\ (ds = [lit "unknown"]
        \/ (ds <> [] /\ incl ds (HappyHour.weekdays ++ HappyHour.weekend)))
    /\ (ds = [lit "unknown"]
        <-> existsb (HappyHour.includes (ascii_lower (lit "Mon-Fri 4-6pm")))
              keywords = false).
Proof.
  apply (happy_hour_text_gives_one_schedule ascii_lower (lit "Mon-Fri 4-6pm")).
  discriminate.
Defined.

(** ** The happy hour migration *)

Lemma json_updates_fold (toLowerCase : str -> str)
  (stringify : list HappyHour.schedule -> str) (rs : list restaurant)
  (db : database) :
  fold_left
    (fun d r =>
       snd (Production.update_restaurants
              [Production.set_happy_hour_data
                 (HappyHourJson.happyHourData toLowerCase stringify r)]
              (r_id r) d))
    rs db
  = with_restaurants
      (map (fun r =>
              fold_left (fun r' s => json_step toLowerCase stringify s r') rs r)
         (restaurants db)) db.
Proof.
  revert db. induction rs as [|s rs IH]; intros db; simpl.
  - rewrite map_id. now destruct db.
  - rewrite IH. unfold Production.update_restaurants. simpl.
    rewrite map_map. now destruct db.
Qed.

Lemma json_steps_miss (toLowerCase : str -> str)
  (stringify : list HappyHour.schedule -> str) (rs : list restaurant)
  (r : restaurant) :
  (forall s, In s rs -> r_id s <> r_id r) ->
  fold_left (fun r' s => json_step toLowerCase stringify s r') rs r = r.
Proof.
  revert r. induction rs as [|s rs IH]; intros r H; simpl; [reflexivity|].
  assert (E : json_step toLowerCase stringify s r = r).
  { unfold json_step.
    assert (r_id r <> r_id s) as Hn by (intros E; apply (H s); auto; now left).
    apply N.eqb_neq in Hn. now rewrite Hn. }
  rewrite E. apply IH. intros s' Hs'. apply H. now right.
Qed.

Lemma json_steps_on_selected (toLowerCase : str -> str)
  (stringify : list HappyHour.schedule -> str) (before after : list restaurant)
  (r : restaurant) :
  NoDup (map r_id (before ++ r :: after)) ->
  fold_left (fun r' s => json_step toLowerCase stringify s r')
    (filter HappyHourJson.lacks_json (before ++ r :: after)) r
  = with_json toLowerCase stringify r.
Proof.
  intros Hnd. rewrite map_app in Hnd. simpl in Hnd.
  pose proof (NoDup_remove_2 _ _ _ Hnd) as Hout.
  rewrite filter_app, fold_left_app. simpl filter.
  rewrite (json_steps_miss _ _ (filter HappyHourJson.lacks_json before)).
  2:{ intros s Hs E. apply filter_In in Hs. apply Hout, in_or_app. left.
      rewrite <- E. now apply in_map. }
  unfold with_json. destruct (HappyHourJson.lacks_json r); simpl.
  - unfold json_step at 2. rewrite N.eqb_refl. apply json_steps_miss.
    intros s Hs E. apply filter_In in Hs. apply Hout, in_or_app. right.
    destruct r; simpl in E |- *. rewrite <- E. now apply in_map.
  - apply json_steps_miss. intros s Hs E. apply filter_In in Hs.
    apply Hout, in_or_app. right. rewrite <- E. now apply in_map.
Qed.

Lemma json_rows (toLowerCase : str -> str)
  (stringify : list HappyHour.schedule -> str) (db : database) :
  NoDup (map r_id (restaurants db)) ->
  snd (HappyHourJson.migrate_happy_hour_json toLowerCase stringify db)
  = with_restaurants (map (with_json toLowerCase stringify) (restaurants db)) db.
Proof.
  intros Hnd. unfold HappyHourJson.migrate_happy_hour_json.
  destruct (List.length _ =? 0)%nat eqn:E; cbn [snd].
  - apply Nat.eqb_eq, length_zero_iff_nil in E.
    replace (map (with_json toLowerCase stringify) (restaurants db))
      with (restaurants db); [now destruct db|].
    rewrite <- (map_id (restaurants db)) at 1. apply map_ext_in.
    intros r Hr. unfold with_json.
    destruct (HappyHourJson.lacks_json r) eqn:L; [|reflexivity].
    assert (In r (filter HappyHourJson.lacks_json (restaurants db)))
      by now apply filter_In.
    rewrite E in H. contradiction.
  - rewrite json_updates_fold. f_equal. apply map_ext_in.
    intros r Hr. apply in_split in Hr. destruct Hr as (l1 & l2 & El).
    rewrite El in Hnd |- *. now apply json_steps_on_selected.
Qed.

Lemma with_json_done (toLowerCase : str -> str)
  (stringify : list HappyHour.schedule -> str) (r : restaurant) :
  (forall x, stringify x <> []) ->
  HappyHourJson.lacks_json (with_json toLowerCase stringify r) = false.
Proof.
  intros Hs. unfold with_json.
  destruct (HappyHourJson.lacks_json r) eqn:L; [|exact L].
  unfold HappyHourJson.lacks_json. destruct r; simpl.
  match goal with
  | |- context [truthy (HappyHourJson.happyHourData ?a ?b ?c)] =>
      pose proof (Hs (HappyHour.parseExistingHappyHour a
                        (r_happy_hour c) (r_happy_hour_start_time c)
                        (r_happy_hour_end_time c))) as Hn;
      apply truthy_not_nil in Hn; unfold HappyHourJson.happyHourData;
      rewrite Hn
  end.
  simpl. apply andb_false_r.
Qed.

(** X20: With ids that are not repeated and a JSON text that is never empty, the
    happy hour migration writes the JSON column of the rows that have a text
    and no JSON, and nothing else; a second run finds no restaurant to
    migrate and leaves the database as it is. *)
Theorem happy_hour_migration_runs_once (toLowerCase : str -> str)
  (stringify : list HappyHour.schedule -> str) (db : database) :
  (forall x, stringify x <> []) ->
  NoDup (map r_id (restaurants db)) ->
  let db' :=
    snd (HappyHourJson.migrate_happy_hour_json toLowerCase stringify db) in
  db' = with_restaurants
          (map (with_json toLowerCase stringify) (restaurants db)) db
  /\ HappyHourJson.migrate_happy_hour_json toLowerCase stringify db'
     = (HappyHourJson.NoRestaurants, db').
Proof.
  intros Hs Hnd. cbv zeta. rewrite json_rows by exact Hnd.
  split; [reflexivity|].
  unfold HappyHourJson.migrate_happy_hour_json at 1.
  replace (filter HappyHourJson.lacks_json _) with (@nil restaurant);
    [reflexivity|].
  clear Hnd. symmetry. destruct db; simpl.
  match goal with |- filter _ (map _ ?l) = [] => induction l as [|r l IH] end;
    simpl; [reflexivity|].
  rewrite (with_json_done toLowerCase stringify r Hs). exact IH.
Qed.

Lemma happy_hour_migration_runs_once_witness :
  let db' :=
    snd (HappyHourJson.migrate_happy_hour_json ascii_lower
           (fun _ => lit "{}") happy_bar) in
  db' = with_restaurants
          (map (with_json ascii_lower (fun _ => lit "{}"))
             (restaurants happy_bar)) happy_bar
  /\ HappyHourJson.migrate_happy_hour_json ascii_lower (fun _ => lit "{}") db'
     = (HappyHourJson.NoRestaurants, db').
Proof.
  apply (happy_hour_migration_runs_once ascii_lower (fun _ => lit "{}") happy_bar).
  - discriminate.
  - repeat constructor. simpl. tauto.
Defined.

(** ** The neighborhood migration *)

Lemma link_eqb_eq (a b : link) : link_eqb a b = true -> a = b.
Proof.
  unfold link_eqb. destruct a, b. simpl. rewrite andb_true_iff, !N.eqb_eq.
  now intros (-> & ->).
Qed.

Lemma more_links_refl (db : database) : more_neighborhood_links db db.
Proof.
  repeat split. exists []. now rewrite app_nil_r.
Qed.

Lemma more_links_trans (a b c : database) :
  more_neighborhood_links a b -> more_neighborhood_links b c ->
  more_neighborhood_links a c.
Proof.
  intros (R1 & E1 & L1 & n1 & N1) (R2 & E2 & L2 & n2 & N2).
  split; [congruence|]. split; [intros k; now rewrite E2|].
  split; [intros k Hk; now rewrite L2, L1|].
  exists (n1 ++ n2). now rewrite N2, N1, app_assoc.
Qed.

Lemma more_links_keep (a b : database) (l : link) :
  more_neighborhood_links a b ->
  In l (links Neighborhoods a) -> In l (links Neighborhoods b).
Proof.
  intros (_ & _ & _ & new & ->) H. apply in_or_app. now left.
Qed.

Lemma ioil_more (l : link) (db : database) :
  more_neighborhood_links db (insert_or_ignore_link Neighborhoods l db)
  /\ In l (links Neighborhoods (insert_or_ignore_link Neighborhoods l db)).
Proof.
  unfold insert_or_ignore_link. destruct (existsb _ _) eqn:E.
  - split; [apply more_links_refl|].
    apply existsb_exists in E. destruct E as (x & Hx & Ex).
    apply link_eqb_eq in Ex. now subst x.
  - split.
    + split; [apply restaurants_with_links|].
      split; [intros c; apply entries_with_links|].
      split; [intros c Hc; apply links_with_links_other; congruence|].
      exists [l]. apply links_with_links_same.
    + rewrite links_with_links_same. apply in_or_app. right. now left.
Qed.

Lemma link_ids_more (rid : N) (ids : list N) (db : database) :
  let db' :=
    fold_left
      (fun d' i => insert_or_ignore_link Neighborhoods (mkLink rid i) d')
      ids db in
  more_neighborhood_links db db'
  /\ forall i, In i ids -> In (mkLink rid i) (links Neighborhoods db').
Proof.
  cbv zeta. revert db. induction ids as [|a ids IH]; intros db; simpl.
  - split; [apply more_links_refl|contradiction].
  - destruct (ioil_more (mkLink rid a) db) as (M1 & H1).
    destruct (IH (insert_or_ignore_link Neighborhoods (mkLink rid a) db))
      as (M2 & H2).
    split; [now apply (more_links_trans _ _ _ M1)|].
    intros i [<-|Hi]; [now apply (more_links_keep _ _ _ M2)|now apply H2].
Qed.

Lemma link_neighborhoods_more (work : list (N * str)) (db : database) :
  more_neighborhood_links db (link_neighborhoods work db)
  /\ forall w i, In w work -> In (i, snd w) (entries Neighborhoods db) ->
       In (mkLink (fst w) i) (links Neighborhoods (link_neighborhoods work db)).
Proof.
  unfold link_neighborhoods. revert db.
  induction work as [|w work IH]; intros db; simpl.
  - split; [apply more_links_refl|contradiction].
  - destruct (link_ids_more (fst w) (ids_named Neighborhoods (snd w) db) db)
      as (M1 & H1).
    cbv zeta in M1, H1.
    set (d1 := fold_left _ (ids_named Neighborhoods (snd w) db) db) in *.
    destruct (IH d1) as (M2 & H2).
    split; [now apply (more_links_trans _ _ _ M1)|].
    intros w' i [<-|Hw] Hi.
    + apply (more_links_keep _ _ _ M2). apply H1. now apply In_ids_named.
    + apply H2; [exact Hw|]. destruct M1 as (_ & E & _). now rewrite E.
Qed.

Lemma ensure_neighborhoods_spec (work : list (N * str)) (db : database) :
  let d := ensure_neighborhoods work db in
  restaurants d = restaurants db
  /\ (forall c, links c d = links c db)
  /\ (forall c, c <> Neighborhoods -> entries c d = entries c db)
  /\ (exists added,
        entries Neighborhoods d = entries Neighborhoods db ++ added
        /\ forall e, In e added -> In (snd e) (map snd work))
  /\ (forall w, In w work -> exists i, In (i, snd w) (entries Neighborhoods d))
  /\ (keyed db -> keyed d).
Proof.
  cbv zeta. unfold ensure_neighborhoods. revert db.
  induction work as [|w work IH]; intros db; cbn [fold_left].
  - split; [reflexivity|]. split; [reflexivity|]. split; [reflexivity|].
    split; [exists []; rewrite app_nil_r; split; [reflexivity|contradiction]|].
    split; [intros w []|trivial].
  - destruct (IH (insert_or_ignore Neighborhoods (snd w) db))
      as (R & L & E & (added & Ea & Ha) & P & K).
    split; [now rewrite R, ioi_restaurants|].
    split; [intros c; now rewrite L, ioi_links|].
    split.
    { intros c Hc. rewrite (E c Hc).
      destruct (ioi_added Neighborhoods c (snd w) db) as ([|e a1] & E1 & H1).
      - now rewrite E1, app_nil_r.
      - destruct (H1 e (or_introl eq_refl)) as (Hc' & _). congruence. }
    split.
    { destruct (ioi_added Neighborhoods Neighborhoods (snd w) db)
        as (a1 & E1 & H1).
      exists (a1 ++ added). split; [now rewrite Ea, E1, app_assoc|].
      intros e He. apply in_app_or in He. destruct He as [He|He].
      - left. destruct (H1 e He) as (_ & Hs). now symmetry.
      - right. now apply Ha. }
    split.
    { intros w' [<-|Hw]; [|now apply P].
      destruct (ioi_entry_present Neighborhoods (snd w) db) as (i & Hi).
      exists i. rewrite Ea. apply in_or_app. now left. }
    intros Hk. apply K. now apply keyed_insert_or_ignore.
Qed.

Lemma In_migration_work (rs : list restaurant) (rid : N) (nm : str) :
  In (rid, nm) (Production.migration_work rs)
  <-> exists r raw, In r rs /\ r_id r = rid /\ r_neighborhood r = Some raw
                    /\ In nm (values raw).
Proof.
  unfold Production.migration_work. rewrite in_flat_map. split.
  - intros (r & Hr & Hin). apply filter_In in Hr. destruct Hr as (Hr & Ht).
    destruct (r_neighborhood r) as [raw|] eqn:En; [|discriminate].
    simpl in Hin. apply in_map_iff in Hin. destruct Hin as (x & E & Hx).
    injection E as <- <-. now exists r, raw.
  - intros (r & raw & Hr & <- & En & Hin). exists r. split.
    + apply filter_In. split; [exact Hr|]. rewrite En.
      destruct raw; [contradiction|reflexivity].
    + rewrite En. simpl. now apply in_map.
Qed.

Lemma migration_state (db : database) :
  snd (Migration.migrate_neighborhoods db)
  = link_neighborhoods (Production.migration_work (restaurants db))
      (ensure_neighborhoods (Production.migration_work (restaurants db)) db).
Proof.
  unfold Migration.migrate_neighborhoods.
  destruct (List.length _ =? 0)%nat eqn:E.
  - apply Nat.eqb_eq, length_zero_iff_nil in E.
    unfold Production.migration_work.
    change (filter _ (restaurants db))
      with (filter Migration.has_legacy (restaurants db)).
    now rewrite E.
  - destruct (Production.migration_work (restaurants db)); reflexivity.
Qed.

(** X21: The neighborhood migration leaves the restaurants, the legacy column
    included, and every table but [neighborhoods] and
    [restaurant_neighborhoods] as they are, and keeps the rows of these two.
    The names it adds are values of a legacy column and never empty;
    afterwards every value of the legacy column of a restaurant is among
    the neighborhoods linked to it, and tables that held no id and no name
    twice still do. *)
Theorem neighborhood_migration_links_every_value (db : database) :
  let db' := snd (Migration.migrate_neighborhoods db) in
  restaurants db' = restaurants db
  /\ (forall c, c <> Neighborhoods ->
        entries c db' = entries c db /\ links c db' = links c db)
  /\ (exists added,
        entries Neighborhoods db' = entries Neighborhoods db ++ added
        /\ forall e, In e added ->
             snd e <> []
             /\ exists r raw, In r (restaurants db)
                              /\ r_neighborhood r = Some raw
                              /\ In (snd e) (values raw))
  /\ (exists new,
        links Neighborhoods db' = links Neighborhoods db ++ new)
  /\ (forall r raw nm,
        In r (restaurants db) -> r_neighborhood r = Some raw ->
        In nm (values raw) ->
        In nm (linked_names Neighborhoods db' (r_id r)))
  /\ (keyed db -> keyed db').
Proof.
  cbv zeta. rewrite migration_state.
  set (work := Production.migration_work (restaurants db)).
  destruct (ensure_neighborhoods_spec work db)
    as (R1 & L1 & E1 & (added & Ea & Ha) & P1 & K1).
  cbv zeta in R1, L1, E1, Ea, P1, K1.
  destruct (link_neighborhoods_more work (ensure_neighborhoods work db))
    as ((R2 & E2 & L2 & new & N2) & H2).
  split; [congruence|].
  split; [intros c Hc; now rewrite E2, (E1 c Hc), (L2 c Hc), L1|].
  split.
  { exists added. split; [now rewrite E2|]. intros [i nm] He.
    apply Ha in He. apply in_map_iff in He. destruct He as ([rid n] & E & Hw).
    simpl in E. subst n. apply In_migration_work in Hw.
    destruct Hw as (r & raw & Hr & _ & En & Hin). split; [|now exists r, raw].
    simpl. unfold values in Hin. apply filter_In in Hin.
    now apply truthy_not_nil. }
  split; [exists new; now rewrite N2, L1|].
  split.
  { intros r raw nm Hr En Hin.
    assert (Hw : In (r_id r, nm) work)
      by (apply In_migration_work; now exists r, raw).
    destruct (P1 _ Hw) as (i & Hi).
    apply (linked_names_in _ _ _ i); [now apply (H2 (r_id r, nm))|].
    now rewrite E2. }
  intros Hk. apply (keyed_same_entries (ensure_neighborhoods work db));
    [exact E2|now apply K1].
Qed.

Lemma filter_none (p : restaurant -> bool) (l : list restaurant) :
  filter p l = [] <-> forall r, In r l -> p r = false.
Proof.
  induction l as [|a l IH]; simpl; [tauto|].
  destruct (p a) eqn:E.
  - split; [discriminate|]. intros H. specialize (H a (or_introl eq_refl)).
    congruence.
  - rewrite IH. split.
    + intros H r [<-|Hr]; auto.
    + intros H r Hr. apply H. now right.
Qed.

Lemma migration_work_nil (rs : list restaurant) :
  Production.migration_work rs = []
  <-> forall r raw, In r rs -> r_neighborhood r = Some raw -> values raw = [].
Proof.
  split.
  - intros E r raw Hr En. destruct (values raw) as [|nm vs] eqn:Ev; [reflexivity|].
    assert (H : In (r_id r, nm) (Production.migration_work rs)).
    { apply In_migration_work. exists r, raw. rewrite Ev. repeat split; auto.
      now left. }
    rewrite E in H. contradiction.
  - intros H. destruct (Production.migration_work rs) as [|[rid nm] work] eqn:E;
      [reflexivity|].
    assert (Hw : In (rid, nm) (Production.migration_work rs))
      by (rewrite E; now left).
    apply In_migration_work in Hw. destruct Hw as (r & raw & Hr & _ & En & Hin).
    rewrite (H r raw Hr En) in Hin. contradiction.
Qed.

(** X22: The neighborhood migration answers that there is nothing to migrate
    exactly when no restaurant has a legacy text.  It sends no reply at all,
    and writes nothing, exactly when some restaurant has one and none of the
    texts names a value.  Otherwise it counts the restaurants with a text
    and the values of all texts, at least one of each. *)
Theorem neighborhood_migration_reply (db : database) :
  (fst (Migration.migrate_neighborhoods db) = Some Migration.NothingToMigrate
   <-> forall r, In r (restaurants db) -> Migration.has_legacy r = false)
  /\ (fst (Migration.migrate_neighborhoods db) = None
      <-> (exists r, In r (restaurants db) /\ Migration.has_legacy r = true)
          /\ forall r raw, In r (restaurants db) ->
               r_neighborhood r = Some raw -> values raw = [])
  /\ (fst (Migration.migrate_neighborhoods db) = None ->
      snd (Migration.migrate_neighborhoods db) = db)
  /\ (forall k n,
        fst (Migration.migrate_neighborhoods db) = Some (Migration.Migrated k n) ->
        k = List.length (filter Migration.has_legacy (restaurants db))
        /\ n = List.length (Production.migration_work (restaurants db))
        /\ (1 <= k)%nat /\ (1 <= n)%nat).
Proof.
  pose proof (filter_none Migration.has_legacy (restaurants db)) as Hf.
  pose proof (migration_work_nil (restaurants db)) as Hw.
  unfold Migration.migrate_neighborhoods.
  destruct (filter Migration.has_legacy (restaurants db)) as [|r0 rs] eqn:Ef;
    simpl.
  - split; [split; [intros _; now apply Hf|reflexivity]|].
    split; [|split; [discriminate|intros k n; discriminate]].
    split; [discriminate|]. intros ((r & Hr & Hl) & _).
    destruct Hf as (Hf & _). rewrite (Hf eq_refl r Hr) in Hl. discriminate.
  - assert (Hsome : exists r, In r (restaurants db) /\ Migration.has_legacy r = true).
    { exists r0. apply filter_In. rewrite Ef. now left. }
    destruct (Production.migration_work (restaurants db)) as [|w work] eqn:Ew;
      simpl.
    + split.
      { split; [discriminate|]. intros H. destruct Hf as (_ & Hf).
        discriminate (Hf H). }
      split; [|split; [reflexivity|intros k n; discriminate]].
      split; [intros _|reflexivity]. split; [exact Hsome|now apply Hw].
    + split.
      { split; [discriminate|]. intros H. destruct Hf as (_ & Hf).
        discriminate (Hf H). }
      split; [|split; [discriminate|]].
      * split; [discriminate|]. intros (_ & H). destruct Hw as (_ & Hw).
        discriminate (Hw H).
      * intros k n E. injection E as <- <-. repeat split; lia.
Qed.

(** ** The listing of the development server *)

(** X23: In the development server the search term and the neighborhood
    parameter are conditions of the WHERE clause: every restaurant of a
    listing matches the term in its name, notes or what_to_order and the
    neighborhood text in its legacy column, and a listing without a limit
    holds at most 100 restaurants. *)
Theorem development_listing_narrows (q : query) (db : database)
  (rows : list Development.restaurant_json) :
  Development.get_restaurants q db = Development.RestaurantList rows ->
  (forall o, In o rows ->
     exists r,
       In r (restaurants db) /\ o = Development.shape db r
       /\ (forall s, q_search q = Some s -> s <> [] ->
             like (contains_pattern s) (r_name r)
             || like_column (contains_pattern s) (r_notes r)
             || like_column (contains_pattern s) (r_what_to_order r) = true)
       /\ (forall n, q_neighborhoods q = Some n -> n <> [] ->
             like_column (contains_pattern n) (r_neighborhood r) = true))
  /\ ((0 <= default Development.default_limit (q_limit q))%Z ->
      (List.length rows
       <= Z.to_nat (default Development.default_limit (q_limit q)))%nat)
  /\ (q_limit q = None -> (List.length rows <= 100)%nat).
Proof.
  unfold Development.get_restaurants, run_select.
  destruct (group_filter _) as [keep|]; [|discriminate]. simpl.
  intros H. injection H as <-.
  assert (Hlen : (0 <= default Development.default_limit (q_limit q))%Z ->
                 (List.length
                    (map (Development.shape db)
                       (limit_offset (sel_limit (Development.build_query q))
                          (sel_offset (Development.build_query q))
                          (order_by_name
                             (selected (Development.build_query q) keep db))))
                  <= Z.to_nat (default Development.default_limit (q_limit q)))%nat).
  { intros Hl. rewrite length_map. unfold limit_offset.
    change (sel_limit (Development.build_query q))
      with (default Development.default_limit (q_limit q)).
    replace (default Development.default_limit (q_limit q) <? 0)%Z with false
      by (symmetry; apply Z.ltb_ge; exact Hl).
    apply firstn_le_length. }
  split; [|split; [exact Hlen|]].
  - intros o Ho. apply in_map_iff in Ho. destruct Ho as (r & <- & Hr).
    apply In_limit_offset in Hr. apply -> In_order_by_name in Hr.
    unfold selected in Hr. apply filter_In in Hr. destruct Hr as (Hr & Hk).
    apply andb_true_iff in Hk. destruct Hk as (Hw & _).
    rewrite forallb_forall in Hw.
    exists r. split; [exact Hr|]. split; [reflexivity|]. split.
    + intros s Es Hs.
      apply (Hw (name_notes_order_like (contains_pattern s))).
      unfold Development.build_query. cbv zeta. unfold sel_where. rewrite Es.
      destruct s; [congruence|]. now left.
    + intros n En Hn.
      apply (Hw (neighborhood_like (contains_pattern n))).
      unfold Development.build_query. cbv zeta. unfold sel_where. rewrite En.
      destruct n; [congruence|]. cbn [truthy].
      apply in_or_app. right. apply in_or_app. right. apply in_or_app.
      left. now left.
  - intros E. rewrite E in Hlen. apply Hlen. discriminate.
Qed.

Lemma development_listing_narrows_witness :
  (forall o,
     In o [Development.shape one_place
             (hd (mkRestaurant 0 [] None None None 0 None None None None
                    0 None None None None None None None)
                (restaurants one_place))] ->
     exists r,
       In r (restaurants one_place) /\ o = Development.shape one_place r
       /\ (forall s, q_search search_osteria = Some s -> s <> [] ->
             like (contains_pattern s) (r_name r)
             || like_column (contains_pattern s) (r_notes r)
             || like_column (contains_pattern s) (r_what_to_order r) = true)
       /\ (forall n, q_neighborhoods search_osteria = Some n -> n <> [] ->
             like_column (contains_pattern n) (r_neighborhood r) = true))
  /\ ((0 <= default Development.default_limit (q_limit search_osteria))%Z ->
      (List.length
         [Development.shape one_place
            (hd (mkRestaurant 0 [] None None None 0 None None None None
                   0 None None None None None None None)
               (restaurants one_place))]
       <= Z.to_nat (default Development.default_limit
                      (q_limit search_osteria)))%nat)
  /\ (q_limit search_osteria = None ->
      (List.length
         [Development.shape one_place
            (hd (mkRestaurant 0 [] None None None 0 None None None None
                   0 None None None None None None None)
               (restaurants one_place))] <= 100)%nat).
Proof.
  apply (development_listing_narrows search_osteria one_place).
  reflexivity.
Defined.
